(** * Trivia quiz game: a shallow embedding of [trivia_game.py] and
    [trivia_game_helpers.py], with the properties of its specification.

    Layout:
    - [Py]: the Python built-ins the program calls ([str], [str.join],
      insertion-ordered [dict]), and [int] and [str.upper] on ASCII text;
    - [Console]: the effects of the program (console lines read and
      written, the HTTP request, the file written, exceptions);
    - [Csv]: [csv.writer] and [csv.reader] with the default (excel) dialect;
    - [Helpers]: the functions of [trivia_game_helpers.py];
    - [Game]: the script [trivia_game.py];
    - [Spec]: the vocabulary of the statements;
    - [Inv]: the loops of [quiz] as functions on the table, and the
      invariants the proofs carry;
    - [Sample]: a payload, a server and a score table to run the program on;
    - [More]: the vocabulary of the further properties;
    - the theorems: the entry flow, the winner, the quiz, the export, and
      further properties of the same functions and of the whole script,
      for every [int] and [str.upper];
    - the runs of the program on the sample data. *)

From Stdlib Require Import List String Ascii ZArith Lia Bool.
From Stdlib Require Import Decimal DecimalString DecimalZ.
Import ListNotations.

Local Open Scope string_scope.
Local Open Scope list_scope.
Local Open Scope Z_scope.

(* ================================================================= *)
(** ** Python built-ins *)

Module Py.

(** Text is a [string].  What Python does to a text through its Unicode
    tables, [str.upper] and [int], is no part of this module: the program
    below takes these two functions as parameters.  [ascii_upper] and
    [int] here are what the two functions are on a text of ASCII
    characters (see [is_ascii]), and serve to run the program on such
    texts.  Integers are unbounded ([Z]); the interpreter's cap on the
    length of a numeral that [str] and [int] convert is taken to be
    lifted. *)

Definition LF : ascii := ascii_of_nat 10.
Definition CR : ascii := ascii_of_nat 13.
Definition DQ : ascii := ascii_of_nat 34.
Definition nl : string := String LF EmptyString.

Definition code (c : ascii) : nat := nat_of_ascii c.

Definition in_range (lo hi : nat) (c : ascii) : bool :=
  (Nat.leb lo (code c) && Nat.leb (code c) hi)%bool.

Definition is_lower : ascii -> bool := in_range 97 122.

(** [str.isspace] on ASCII: TAB..CR, FS..US and the blank. *)
Definition is_space (c : ascii) : bool :=
  (in_range 9 13 c || in_range 28 31 c || Nat.eqb (code c) 32)%bool.

Definition upper_char (c : ascii) : ascii :=
  if is_lower c then ascii_of_nat (code c - 32) else c.

(** A text of ASCII characters: every code is below 128. *)
Fixpoint is_ascii (s : string) : bool :=
  match s with
  | EmptyString => true
  | String c s' => (Nat.ltb (code c) 128 && is_ascii s')%bool
  end.

(** [s.upper()] for a text of ASCII characters: a..z become A..Z. *)
Fixpoint ascii_upper (s : string) : string :=
  match s with
  | EmptyString => EmptyString
  | String c s' => String (upper_char c) (ascii_upper s')
  end.

Fixpoint lstrip (s : string) : string :=
  match s with
  | EmptyString => EmptyString
  | String c s' => if is_space c then lstrip s' else s
  end.

Fixpoint rstrip (s : string) : string :=
  match s with
  | EmptyString => EmptyString
  | String c s' =>
      match rstrip s' with
      | EmptyString => if is_space c then EmptyString else String c EmptyString
      | r => String c r
      end
  end.

(** [s.strip()] *)
Definition strip (s : string) : string := lstrip (rstrip s).

(** [sep.join(parts)] *)
Fixpoint join (sep : string) (parts : list string) : string :=
  match parts with
  | [] => EmptyString
  | [p] => p
  | p :: rest => p ++ sep ++ join sep rest
  end.

(** [c in s] for a character *)
Fixpoint contains (c : ascii) (s : string) : bool :=
  match s with
  | EmptyString => false
  | String c' s' => (Ascii.eqb c c' || contains c s')%bool
  end.

(** [str(n)] for an integer: its decimal numeral, [-] first when negative. *)
Definition str (n : Z) : string := NilZero.string_of_int (Z.to_int n).

(** The digits of an [int] literal may be grouped by single underscores:
    one never starts or ends the numeral and no two are adjacent.
    [prev] says that the character before was a digit. *)
Fixpoint grouped (prev : bool) (s : string) : bool :=
  match s with
  | EmptyString => prev
  | String c s' =>
      if Ascii.eqb c "_" then (prev && grouped false s')%bool
      else grouped true s'
  end.

Fixpoint drop_underscores (s : string) : string :=
  match s with
  | EmptyString => EmptyString
  | String c s' =>
      if Ascii.eqb c "_" then drop_underscores s'
      else String c (drop_underscores s')
  end.

Definition int_unsigned (s : string) : option Z :=
  if grouped false s then
    match NilEmpty.uint_of_string (drop_underscores s) with
    | Some d => Some (Z.of_uint d)
    | None => None
    end
  else None.

(** The blanks that [int] skips around a numeral: TAB..CR and the
    blank (FS..US are white space for [str.strip], not for [int]). *)
Definition is_blank (c : ascii) : bool :=
  (in_range 9 13 c || Nat.eqb (code c) 32)%bool.

Fixpoint skip_left (s : string) : string :=
  match s with
  | EmptyString => EmptyString
  | String c s' => if is_blank c then skip_left s' else s
  end.

Fixpoint skip_right (s : string) : string :=
  match s with
  | EmptyString => EmptyString
  | String c s' =>
      match skip_right s' with
      | EmptyString => if is_blank c then EmptyString else String c EmptyString
      | r => String c r
      end
  end.

(** [int(s)] for a text of ASCII characters: [None] stands for
    [ValueError].  Blanks around the numeral are skipped, one sign is
    allowed, then decimal digits. *)
Definition int (s : string) : option Z :=
  match skip_left (skip_right s) with
  | String "-" r => option_map Z.opp (int_unsigned r)
  | String "+" r => int_unsigned r
  | r => int_unsigned r
  end.

(** [sum(values)] *)
Definition sum (values : list Z) : Z := fold_left Z.add values 0.

(** *** Dictionaries

    A [dict] keeps its keys in insertion order, and assigning to a key
    that is present keeps the key's place: an association list without
    repeated keys, updated in place. *)

Definition dict (V : Type) : Type := list (string * V).

(** [d[k]]; [None] stands for [KeyError]. *)
Fixpoint getitem {V} (k : string) (d : dict V) : option V :=
  match d with
  | [] => None
  | (k', v) :: d' => if String.eqb k k' then Some v else getitem k d'
  end.

(** [d[k] = v] *)
Fixpoint setitem {V} (k : string) (v : V) (d : dict V) : dict V :=
  match d with
  | [] => [(k, v)]
  | (k', v') :: d' =>
      if String.eqb k k' then (k, v) :: d' else (k', v') :: setitem k v d'
  end.

Definition keys {V} (d : dict V) : list string := map fst d.
Definition values {V} (d : dict V) : list V := map snd d.

End Py.

(* ================================================================= *)
(** ** Effects: console, network, file, exceptions *)

Module Console.

(** What the program does to the outside, in the order it does it. *)
Inductive event : Type :=
| Printed (line : string)            (* print(line) *)
| Prompted (prompt : string)         (* input(prompt): the prompt shown *)
| Requested (url : string)           (* requests.get(url) *)
| Wrote (path content : string).     (* the file opened with 'w', written, closed *)

Inductive exn : Type :=
| EOFError | NameError | KeyError | StopIteration.

Inductive outcome (A : Type) : Type :=
| Ok (a : A)
| Raise (e : exn).
Arguments Ok {A} a.
Arguments Raise {A} e.

(** A run ends with a value or an uncaught exception, leaves the
    console lines it has not read, and has emitted [trace]. *)
Record run (A : Type) : Type := Run {
  result : outcome A;
  stdin : list string;
  trace : list event
}.
Arguments Run {A}.
Arguments result {A}.
Arguments stdin {A}.
Arguments trace {A}.

(** A computation reads the console lines that are typed from now on. *)
Definition M (A : Type) : Type := list string -> run A.

Definition ret {A} (a : A) : M A := fun ins => Run (Ok a) ins [].

Definition raise {A} (e : exn) : M A := fun ins => Run (Raise e) ins [].

(** [emit evs r]: [r] after the events [evs]. *)
Definition emit {A} (evs : list event) (r : run A) : run A :=
  Run (result r) (stdin r) (evs ++ trace r).

Definition bind {A B} (m : M A) (f : A -> M B) : M B :=
  fun ins =>
    let r := m ins in
    match result r with
    | Ok a => emit (trace r) (f a (stdin r))
    | Raise e => Run (Raise e) (stdin r) (trace r)
    end.

(** [print(line)] *)
Definition print (line : string) : M unit :=
  fun ins => Run (Ok tt) ins [Printed line].

(** The file at [path] is opened for writing, which empties it, gets
    [content] and is closed. *)
Definition write_file (path content : string) : M unit :=
  fun ins => Run (Ok tt) ins [Wrote path content].

(** [input(prompt)]: shows the prompt and reads one line, without its
    newline; at the end of the input it raises [EOFError]. *)
Definition input (prompt : string) : M string :=
  fun ins =>
    match ins with
    | [] => Run (Raise EOFError) [] [Prompted prompt]
    | line :: rest => Run (Ok line) rest [Prompted prompt]
    end.

End Console.

Import Console.

Declare Scope io_scope.
Delimit Scope io_scope with io.
Notation "x <- m ;; k" := (bind m (fun x => k))
  (at level 61, m at next level, right associativity) : io_scope.
Notation "m ;;; k" := (bind m (fun _ => k))
  (at level 61, right associativity) : io_scope.
Local Open Scope io_scope.

(* ================================================================= *)
(** ** csv.writer and csv.reader, excel dialect *)

Module Csv.

Import Py.

(** A cell handed to [writerow]: text, or an integer written by [str]. *)
Inductive cell : Type :=
| Text (s : string)
| Num (n : Z).

Definition cell_str (c : cell) : string :=
  match c with
  | Text s => s
  | Num n => str n
  end.

(** The characters that make [QUOTE_MINIMAL] quote a field: the
    delimiter, the quote character, and those of the line terminator. *)
Definition special (c : ascii) : bool :=
  (Ascii.eqb c "," || Ascii.eqb c DQ || Ascii.eqb c CR || Ascii.eqb c LF)%bool.

Fixpoint needs_quotes (s : string) : bool :=
  match s with
  | EmptyString => false
  | String c s' => (special c || needs_quotes s')%bool
  end.

(** [doublequote]: a quote character inside a field is written twice. *)
Fixpoint escape (s : string) : string :=
  match s with
  | EmptyString => EmptyString
  | String c s' =>
      if Ascii.eqb c DQ then String DQ (String DQ (escape s'))
      else String c (escape s')
  end.

Definition quoted (s : string) : string :=
  String DQ (escape s ++ String DQ EmptyString).

Definition field (s : string) : string :=
  if needs_quotes s then quoted s else s.

Definition crlf : string := String CR (String LF EmptyString).

(** [writer.writerow(row)]: the fields joined by commas, then CR LF.  A
    row of one empty field is written as a pair of quotes. *)
Definition writerow (row : list cell) : string :=
  match map cell_str row with
  | [EmptyString] => quoted EmptyString ++ crlf
  | fields => join "," (map field fields) ++ crlf
  end.

(** *** The reader

    [csv.reader] over the file opened with [newline=''], as the csv
    documentation asks: the file is read line by line (a line ends after
    LF, after CR LF, or after a CR that no LF follows, and keeps its
    ending), each character steps the automaton below, and so does the
    end of each line.  The dialect is the default one: not strict, no
    escape character, initial blanks kept; the limit on the size of a
    field is taken to be above every field of the file. *)

Inductive state : Type :=
| START_RECORD | START_FIELD | IN_FIELD
| IN_QUOTED_FIELD | QUOTE_IN_QUOTED_FIELD | EAT_CRNL.

Record reader : Type := Reader {
  st : state;
  buf : string;                 (* the field being read *)
  fields : list string;         (* the fields of the record being read *)
  rows : list (list string)     (* the records read *)
}.

Definition add_char (c : ascii) (r : reader) : reader :=
  Reader (st r) (buf r ++ String c EmptyString) (fields r) (rows r).

Definition save_field (r : reader) : reader :=
  Reader (st r) EmptyString (fields r ++ [buf r]) (rows r).

Definition goto (s : state) (r : reader) : reader :=
  Reader s (buf r) (fields r) (rows r).

Definition is_newline (c : ascii) : bool :=
  (Ascii.eqb c LF || Ascii.eqb c CR)%bool.

(** One character in state [START_FIELD]. *)
Definition start_field (c : ascii) (r : reader) : reader :=
  if is_newline c then goto EAT_CRNL (save_field r)
  else if Ascii.eqb c DQ then goto IN_QUOTED_FIELD r
  else if Ascii.eqb c "," then goto START_FIELD (save_field r)
  else goto IN_FIELD (add_char c r).

(** [parse_process_char] for a character of the line; [None] is the
    reader's [Error] (a character after a bare line end). *)
Definition process_char (c : ascii) (r : reader) : option reader :=
  match st r with
  | START_RECORD =>
      if is_newline c then Some (goto EAT_CRNL r)
      else Some (start_field c r)
  | START_FIELD => Some (start_field c r)
  | IN_FIELD =>
      if is_newline c then Some (goto EAT_CRNL (save_field r))
      else if Ascii.eqb c "," then Some (goto START_FIELD (save_field r))
      else Some (add_char c r)
  | IN_QUOTED_FIELD =>
      if Ascii.eqb c DQ then Some (goto QUOTE_IN_QUOTED_FIELD r)
      else Some (add_char c r)
  | QUOTE_IN_QUOTED_FIELD =>
      if Ascii.eqb c DQ then Some (goto IN_QUOTED_FIELD (add_char c r))
      else if Ascii.eqb c "," then Some (goto START_FIELD (save_field r))
      else if is_newline c then Some (goto EAT_CRNL (save_field r))
      else Some (goto IN_FIELD (add_char c r))
  | EAT_CRNL =>
      if is_newline c then Some r else None
  end.

(** The record is complete: the reader yields it and starts afresh. *)
Definition yield (r : reader) : reader :=
  Reader START_RECORD EmptyString [] (rows r ++ [fields r]).

(** [parse_process_char] at the end of a line, and the test that ends
    the reader's loop over lines: in state [START_RECORD] the record is
    yielded; inside a quoted field the record goes on with the next line. *)
Definition process_eol (r : reader) : reader :=
  match st r with
  | START_RECORD => yield r
  | START_FIELD | IN_FIELD | QUOTE_IN_QUOTED_FIELD => yield (save_field r)
  | IN_QUOTED_FIELD => r
  | EAT_CRNL => yield r
  end.

(** A line ends after [c] when [c] is LF, or CR with no LF next, or the
    last character of the file. *)
Definition line_ends (c : ascii) (next : string) : bool :=
  match next with
  | EmptyString => true
  | String c' _ =>
      (Ascii.eqb c LF || (Ascii.eqb c CR && negb (Ascii.eqb c' LF)))%bool
  end.

(** The reader over the rest of the file, from inside a line. *)
Fixpoint feed (s : string) (r : reader) : option reader :=
  match s with
  | EmptyString => Some r
  | String c s' =>
      match process_char c r with
      | None => None
      | Some r1 =>
          if line_ends c s' then feed s' (process_eol r1) else feed s' r1
      end
  end.

(** No line is left: a record cut short by the end of the file (inside
    a quoted field, or with characters read) is yielded as it stands. *)
Definition finish (r : reader) : reader :=
  match st r, buf r with
  | IN_QUOTED_FIELD, _ => yield (save_field r)
  | _, String _ _ => yield (save_field r)
  | _, EmptyString => r
  end.

(** [list(csv.reader(file))] *)
Definition read (text : string) : option (list (list string)) :=
  match feed text (Reader START_RECORD EmptyString [] []) with
  | Some r => Some (rows (finish r))
  | None => None
  end.

End Csv.

(* ================================================================= *)
(** ** trivia_game_helpers.py *)

Module Helpers.

Import Py.

(** One question record of the payload, as the API sends it. *)
Record question_record : Type := Question_record {
  question : string;
  correct_answer : string;
  incorrect_answers : list string
}.

(** A [requests.Response]: its status, and [response.json()["results"]]. *)
Record response : Type := Response {
  status_code : Z;
  results : list question_record
}.

(** player name -> (question number as text -> point) *)
Definition score_table : Type := dict (dict Z).

Section Functions.

(** [str.upper], with the case table of the interpreter's Unicode
    database: on a text of ASCII characters it is [ascii_upper]. *)
Variable upper : string -> string.

(** [requests.get]: what the server answers to a URL. *)
Variable get : string -> response.

(** [html.unescape] returns a text without ampersand as it is, and
    otherwise replaces the character references in it, from a table
    that is the library's: [charref_sub] stands for that replacement. *)
Variable charref_sub : string -> string.

(** [random.shuffle]: the order it leaves the choices in. *)
Variable shuffle : list string -> list string.

Definition unescape (s : string) : string :=
  if contains "&" s then charref_sub s else s.

Definition api_url (no_questions : Z) : string :=
  "https://opentdb.com/api.php?amount=" ++ str no_questions.

(** The GET itself: the request leaves, the server's answer comes back. *)
Definition request (url : string) : M response :=
  fun ins => Run (Ok (get url)) ins [Requested url].

Definition get_questions (no_questions : Z) : M response :=
  response <- request (api_url no_questions) ;;
  (if negb (status_code response =? 200) then
     print ("Something went wrong! Didn't get the questions, got status code "
            ++ str (status_code response))
   else ret tt) ;;;
  ret response.

(** The test of lines 135-138. *)
Definition player_points (answer correct_answer : string) : Z :=
  if String.eqb (upper answer) (upper correct_answer) then 1 else 0.

(** Lines 132-140: each player is asked the question in turn. *)
Fixpoint ask_players (players : list string) (question_with_choices : string)
    (correct_answer : string) (question_number : Z) (score : score_table)
    : M score_table :=
  match players with
  | [] => ret score
  | player :: rest =>
      answer <- input (player ++ ": " ++ question_with_choices ++ nl) ;;
      match getitem player score with
      | None => raise KeyError
      | Some points =>
          ask_players rest question_with_choices correct_answer question_number
            (setitem player
               (setitem (str question_number)
                  (player_points answer correct_answer) points)
               score)
      end
  end.

(** Lines 116-144: the loop over the question records. *)
Fixpoint ask_questions (items : list question_record) (player_list : list string)
    (question_number : Z) (score : score_table) : M score_table :=
  match items with
  | [] => ret score
  | item :: rest =>
      let question := unescape (question item) in
      let correct_answer := unescape (correct_answer item) in
      let choices :=
        shuffle (map unescape (incorrect_answers item) ++ [correct_answer]) in
      let question_with_choices :=
        (question ++ " Choices are: " ++ join ", " choices)%string in
      score' <- ask_players player_list question_with_choices correct_answer
                  question_number score ;;
      print (nl ++ "Correct answer is: " ++ correct_answer ++ nl) ;;;
      ask_questions rest player_list (question_number + 1) score'
  end.

(** Lines 109-111. *)
Definition empty_scores (player_list : list string) : score_table :=
  fold_left (fun score player => setitem player [] score) player_list [].

Definition quiz (response : response) (player_list : list string)
    : M score_table :=
  ask_questions (results response) player_list 1 (empty_scores player_list).

(** The variables of [calculate_winner]'s loop. *)
Record tally : Type := Tally {
  highest_score : Z;
  persons_with_highest_score : list string;
  player_point_sums : dict Z
}.

(** Lines 200-206: the body of the loop over [score.items()]. *)
Definition count (t : tally) (entry : string * dict Z) : tally :=
  let '(person, scores) := entry in
  let total_score := sum (values scores) in
  let sums := setitem person total_score (player_point_sums t) in
  if total_score >? highest_score t then
    Tally total_score [person] sums
  else if total_score =? highest_score t then
    Tally (highest_score t) (persons_with_highest_score t ++ [person]) sums
  else
    Tally (highest_score t) (persons_with_highest_score t) sums.

Fixpoint print_all (lines : list string) : M unit :=
  match lines with
  | [] => ret tt
  | line :: rest => print line ;;; print_all rest
  end.

Definition calculate_winner (score : score_table) : M unit :=
  let t := fold_left count score (Tally (-1) [] []) in
  if highest_score t =? 0 then
    print "Sorry, no points. Better luck next time!"
  else
    print ("Player(s) with the highest score (" ++ str (highest_score t) ++ "):") ;;;
    print_all (persons_with_highest_score t) ;;;
    print "Congratulations!".

(** Line 269. *)
Definition headers (questions : list string) : list Csv.cell :=
  [Csv.Text "Name"]
  ++ map (fun q_no => Csv.Text ("Question " ++ q_no)) questions
  ++ [Csv.Text "Total"].

(** Lines 277-278: the row of one player. *)
Definition player_row (entry : string * dict Z) : list Csv.cell :=
  let '(person, scores) := entry in
  let total := sum (values scores) in
  [Csv.Text person] ++ map Csv.Num (values scores) ++ [Csv.Num total].

(** What the writer has put in the file after these rows. *)
Definition writerows (file : string) (rows : list (list Csv.cell)) : string :=
  fold_left (fun file row => (file ++ Csv.writerow row)%string) rows file.

Definition write_score_to_csv (score : score_table) : M unit :=
  match score with
  | [] => raise StopIteration              (* next() of an empty iterator *)
  | (_, first) :: _ =>
      let questions := keys first in
      let file := writerows EmptyString (headers questions :: map player_row score) in
      write_file "quiz_score.csv" file ;;;
      print "You can check the results in quiz_score.csv"
  end.

End Functions.

End Helpers.

(* ================================================================= *)
(** ** trivia_game.py *)

Module Game.

Import Py Helpers.

Section Script.

(** [int] applied to a console line: [None] stands for [ValueError].
    On a line of ASCII characters it is [Py.int]. *)
Variable int : string -> option Z.

Variable upper : string -> string.
Variable get : string -> response.
Variable charref_sub : string -> string.
Variable shuffle : list string -> list string.

(** Lines 39-44: asks until [int] accepts the line. *)
Fixpoint ask_no_players (ins : list string) : run Z :=
  match ins with
  | [] => Run (Raise EOFError) [] [Prompted "How many players? "]
  | line :: rest =>
      match int line with
      | Some no_players => Run (Ok no_players) rest [Prompted "How many players? "]
      | None =>
          emit [Prompted "How many players? "; Printed "Please, give a number"]
            (ask_no_players rest)
      end
  end.

(** Lines 49-55: asks player [number] for a name until one is given
    that is not in [player_list]; the result is the extended list. *)
Fixpoint ask_name (number : Z) (player_list : list string) (ins : list string)
    : run (list string) :=
  let prompt := Prompted ("Player " ++ str number ++ " name: ") in
  match ins with
  | [] => Run (Raise EOFError) [] [prompt]
  | name :: rest =>
      if negb (existsb (String.eqb name) player_list) then
        Run (Ok (player_list ++ [name])) rest [prompt]
      else
        emit [prompt;
              Printed ("The name is already taken. Please give another name." ++ nl)]
          (ask_name number player_list rest)
  end.

(** Lines 45-55: [turns] more turns of the loop over
    [range(no_players)], [number] counting the turns done. *)
Fixpoint ask_names (turns : nat) (number : Z) (player_list : list string)
    : M (list string) :=
  match turns with
  | O => ret player_list
  | S turns' =>
      player_list' <- ask_name (number + 1) player_list ;;
      ask_names turns' (number + 1) player_list'
  end.

Definition thanks (no_questions : Z) : string :=
  nl ++ "Thank you! Lets play the trivia game. All the contestants get"
  ++ " to answer the same " ++ str no_questions ++ " questions. Each correct "
  ++ "answer will earn you 1 point. If you don't know, guess! Eternal "
  ++ "glory awaits whoever wins!" ++ nl.

(** Lines 58-73.  [no_questions] is the variable of that name: [None]
    while nothing has been assigned to it.  A line that [int] refuses
    leaves it as it is, and the test of line 65 reads it all the same. *)
Fixpoint ask_no_questions (no_questions : option Z) (ins : list string)
    : run Z :=
  let prompt := Prompted "How many questions would you like to have? " in
  match ins with
  | [] => Run (Raise EOFError) [] [prompt]
  | line :: rest =>
      let '(no_questions, said) :=
        match int line with
        | Some n => (Some n, [])
        | None => (no_questions, [Printed "Please, give a number"])
        end in
      match no_questions with
      | None => Run (Raise NameError) rest (prompt :: said)
      | Some n =>
          if n <=? 50 then
            Run (Ok n) rest (prompt :: said ++ [Printed (thanks n)])
          else
            emit (prompt :: said
                  ++ [Printed "Sorry, the maximum number of questions is 50."])
              (ask_no_questions (Some n) rest)
      end
  end.

(** The script, top to bottom. *)
Definition main : M unit :=
  print "Welcome to a trivia game!" ;;;
  no_players <- ask_no_players ;;
  player_list <- ask_names (Z.to_nat no_players) 0 [] ;;
  no_questions <- ask_no_questions None ;;
  response <- get_questions get no_questions ;;
  score <- quiz upper charref_sub shuffle response player_list ;;
  calculate_winner score ;;;
  write_score_to_csv score.

End Script.

End Game.

(* ================================================================= *)
(** ** Vocabulary of the statements *)

Module Spec.

Import Py Helpers.

(** The point recorded for [player] at question [q_no], if any. *)
Definition point (score : score_table) (player q_no : string) : option Z :=
  match getitem player score with
  | Some points => getitem q_no points
  | None => None
  end.

(** The keys ["1"], ..., ["n"]. *)
Definition question_keys (n : nat) : list string :=
  map (fun k => str (Z.of_nat k)) (seq 1 n).

Definition is_point (v : Z) : Prop := v = 0 \/ v = 1.

(** A score table of the data model: every point is 0 or 1. *)
Definition points_ok (score : score_table) : Prop :=
  Forall (fun entry => Forall is_point (values (snd entry))) score.

(** Every player has the question keys of the first one, in its order. *)
Definition regular (score : score_table) : Prop :=
  match score with
  | [] => True
  | (_, first) :: _ => Forall (fun entry => keys (snd entry) = keys first) score
  end.

Definition total (entry : string * dict Z) : Z := sum (values (snd entry)).

(** The players of [entries] whose total is [t], in the table's order. *)
Definition with_total (t : Z) (entries : score_table) : list string :=
  map fst (filter (fun entry => total entry =? t) entries).

(** Two characters that are the same letter, in either case. *)
Definition same_letter (a b : ascii) : Prop :=
  a = b
  \/ (is_lower a = true /\ b = ascii_of_nat (code a - 32))
  \/ (is_lower b = true /\ a = ascii_of_nat (code b - 32)).

(** Two texts that differ in letter case only. *)
Fixpoint same_but_case (s t : string) : Prop :=
  match s, t with
  | EmptyString, EmptyString => True
  | String a s', String b t' => same_letter a b /\ same_but_case s' t'
  | _, _ => False
  end.

(** No request has left. *)
Definition no_request (tr : list event) : Prop :=
  forall url, ~ In (Requested url) tr.

(** The header as the reader finds it. *)
Definition header_text (questions : list string) : list string :=
  ["Name"] ++ map (fun q_no => "Question " ++ q_no)%string questions ++ ["Total"].

(** The row of a player as the reader finds it. *)
Definition row_text (entry : string * dict Z) : list string :=
  [fst entry] ++ map str (values (snd entry)) ++ [str (total entry)].

(** The totals a reader of the file finds: the rows after the header,
    each with its first cell and its last cell read by [int]. *)
Definition row_total (row : list string) : option (string * Z) :=
  match row, int (last row EmptyString) with
  | name :: _, Some n => Some (name, n)
  | _, _ => None
  end.

Fixpoint all_some {A} (l : list (option A)) : option (list A) :=
  match l with
  | [] => Some []
  | Some a :: l' => option_map (cons a) (all_some l')
  | None :: _ => None
  end.

Definition parse_totals (file : string) : option (list (string * Z)) :=
  match Csv.read file with
  | Some (_ :: rows) => all_some (map row_total rows)
  | _ => None
  end.

(** C1 speaks of letter case and of blanks: [str.upper] on a text of
    ASCII characters turns a..z into A..Z and leaves the rest. *)
Definition ascii_table (upper : string -> string) : Prop :=
  forall s, is_ascii s = true -> upper s = ascii_upper s.

End Spec.

(* ================================================================= *)
(** ** The loops of [quiz] as functions, and the invariants of the proofs *)

Module Inv.

Import Py Helpers Spec.

(** One answer recorded in the table: lines 135-140. *)
Definition record (upper : string -> string) (correct_answer : string)
    (question_number : Z) (score : score_table) (turn : string * string)
    : score_table :=
  let '(player, answer) := turn in
  match getitem player score with
  | Some points =>
      setitem player
        (setitem (str question_number)
           (player_points upper answer correct_answer) points)
        score
  | None => score
  end.

(** The table after one question: each player paired with the line typed. *)
Definition round (upper : string -> string) (correct_answer : string)
    (question_number : Z) (score : score_table) (players ins : list string)
    : score_table :=
  fold_left (record upper correct_answer question_number) (combine players ins)
    score.

(** The table after all the questions. *)
Fixpoint play (upper charref_sub : string -> string)
    (items : list question_record) (players : list string)
    (question_number : Z) (score : score_table) (ins : list string)
    : score_table :=
  match items with
  | [] => score
  | item :: rest =>
      play upper charref_sub rest players (question_number + 1)
        (round upper (unescape charref_sub (correct_answer item)) question_number
           score players ins)
        (skipn (List.length players) ins)
  end.

(** Every entry of the table has the keys [R] and points 0 or 1. *)
Definition has_shape (R : list string) (score : score_table) : Prop :=
  forall p points,
    getitem p score = Some points ->
    keys points = R /\ Forall is_point (values points).

(** While question [q] is asked: an entry has the keys [R], or those
    and [q]'s once its player has answered. *)
Definition in_round (q : Z) (R : list string) (score : score_table) : Prop :=
  forall p points,
    getitem p score = Some points ->
    Forall is_point (values points)
    /\ (keys points = R \/ keys points = R ++ [str q]).

Definition asked (q : Z) (R : list string) (p : string) (score : score_table)
    : Prop :=
  forall points, getitem p score = Some points -> keys points = R ++ [str q].

(** The state a field leaves the reader in, before the separator. *)
Definition after_field (s : string) (st0 : Csv.state) : Csv.state :=
  if Csv.needs_quotes s then Csv.QUOTE_IN_QUOTED_FIELD
  else match s with
       | EmptyString => st0
       | _ => Csv.IN_FIELD
       end.

(** The states in which a field has been read or may be empty. *)
Definition field_read (st0 : Csv.state) : Prop :=
  st0 = Csv.START_FIELD \/ st0 = Csv.IN_FIELD \/ st0 = Csv.QUOTE_IN_QUOTED_FIELD.

(** A text with no blank and no underscore in it. *)
Fixpoint no_blank_or_underscore (s : string) : bool :=
  match s with
  | EmptyString => true
  | String c s' =>
      (negb (is_space c) && negb (Ascii.eqb c "_") && no_blank_or_underscore s')%bool
  end.

End Inv.

(* ================================================================= *)
(** ** Sample data *)

Module Sample.

Import Py Helpers.

(** A text without ampersand has no character reference to replace. *)
Definition no_charrefs (s : string) : string := s.

(** A shuffle that happens to leave the order as it is. *)
Definition in_order (choices : list string) : list string := choices.

Definition payload : list question_record :=
  [Question_record "What is the capital of France?" "Paris" ["Rome"; "Oslo"];
   Question_record "What is six times seven?" "42" ["41"]].

Definition server (url : string) : response := Response 200 payload.

Definition scores : score_table :=
  [("Sheldon", [("1", 0); ("2", 1); ("3", 1)]);
   ("Leonard", [("1", 0); ("2", 0); ("3", 0)]);
   ("Penny", [("1", 1); ("2", 1); ("3", 1)])].

End Sample.

(* ================================================================= *)
(** ** Vocabulary of the further properties *)

Module More.

Import Py Helpers Spec.

(** The URLs requested, in order. *)
Definition sent (tr : list event) : list string :=
  flat_map (fun ev => match ev with Requested url => [url] | _ => [] end) tr.

(** Nothing but console output: lines printed and prompts shown. *)
Definition console_only (tr : list event) : Prop :=
  Forall (fun ev => match ev with
                    | Printed _ | Prompted _ => True
                    | _ => False
                    end) tr.

(** The highest score [calculate_winner] reports: it starts from -1. *)
Definition highest_total (score : score_table) : Z :=
  fold_left Z.max (map total score) (-1).

Section Prompts.

Variable upper : string -> string.
Variable charref_sub : string -> string.
Variable shuffle : list string -> list string.

(** The question with its choices, as every player is shown it. *)
Definition question_prompt (item : question_record) : string :=
  (unescape charref_sub (question item) ++ " Choices are: "
   ++ join ", "
        (shuffle (map (unescape charref_sub) (incorrect_answers item)
                  ++ [unescape charref_sub (correct_answer item)])))%string.

Definition answer_line (item : question_record) : string :=
  (nl ++ "Correct answer is: " ++ unescape charref_sub (correct_answer item) ++ nl)%string.

(** What one question puts on the console: a prompt per player, in the
    order of the list, then the correct answer. *)
Definition question_events (players : list string) (item : question_record)
    : list event :=
  map (fun player => Prompted (player ++ ": " ++ question_prompt item ++ nl)%string)
      players
  ++ [Printed (answer_line item)].

(** The number of questions that the player at place [j] of [m]
    players answered as the comparison of [quiz] wants it. *)
Definition correct_count (items : list question_record) (m j : nat)
    (ins : list string) : Z :=
  sum (map (fun '(i, item) =>
              player_points upper (nth (i * m + j) ins EmptyString)
                (unescape charref_sub (correct_answer item)))
           (combine (seq 0 (List.length items)) items)).

End Prompts.

(** What [calculate_winner] prints for a table. *)
Definition announcement (score : score_table) : list event :=
  if highest_total score =? 0 then
    [Printed "Sorry, no points. Better luck next time!"]
  else
    [Printed ("Player(s) with the highest score ("
              ++ str (highest_total score) ++ "):")]
    ++ map Printed (with_total (highest_total score) score)
    ++ [Printed "Congratulations!"].

(** What [write_score_to_csv] puts in the file for a table with a player. *)
Definition score_file (score : score_table) : string :=
  match score with
  | [] => EmptyString
  | (_, first) :: _ =>
      writerows EmptyString (headers (keys first) :: map player_row score)
  end.

(** What [get_questions] prints for a response. *)
Definition status_line (response : response) : list event :=
  if status_code response =? 200 then []
  else [Printed ("Something went wrong! Didn't get the questions, got status code "
                 ++ str (status_code response))].


(** The console of the player-count loop after the refused lines [bad]. *)
Definition refused_counts (bad : list string) : list event :=
  flat_map (fun _ => [Prompted "How many players? ";
                      Printed "Please, give a number"]) bad.

End More.

Import Py Helpers Game Spec Inv More.

(* ================================================================= *)
(** ** Built-ins on samples *)

Example str_samples :
  Py.str 0 = "0" /\ Py.str 50 = "50" /\ Py.str (-1) = "-1".
Proof. repeat split. Qed.

Example int_samples :
  Py.int "50" = Some 50 /\ Py.int " 7 " = Some 7 /\ Py.int "-3" = Some (-3)
  /\ Py.int "+1_000" = Some 1000 /\ Py.int "abc" = None
  /\ Py.int "" = None /\ Py.int "1__0" = None /\ Py.int "5_" = None
  /\ Py.int "0051" = Some 51
  /\ Py.int (String (ascii_of_nat 9) "5") = Some 5
  /\ Py.int (String (ascii_of_nat 28) "5") = None.
Proof. repeat split. Qed.

Example upper_samples :
  Py.ascii_upper "paris" = "PARIS" /\ Py.ascii_upper "Paris 42!" = "PARIS 42!"
  /\ Py.ascii_upper " Paris" = " PARIS".
Proof. repeat split. Qed.

(* ================================================================= *)
(** ** The program for every [int] and [str.upper]

    In this section [int] is Python's [int] applied to a console line,
    [None] standing for [ValueError], and [upper] is [str.upper].  The
    functions of the program are applied to these two throughout, and
    what is proved holds whatever the two functions are; a property of
    [str.upper] on ASCII text is a hypothesis where it is used. *)

Section Builtins.

Variable int : string -> option Z.
Variable upper : string -> string.

Local Abbreviation player_points := (Helpers.player_points upper).
Local Abbreviation ask_players := (Helpers.ask_players upper).
Local Abbreviation ask_questions := (Helpers.ask_questions upper).
Local Abbreviation quiz := (Helpers.quiz upper).
Local Abbreviation record := (Inv.record upper).
Local Abbreviation round := (Inv.round upper).
Local Abbreviation play := (Inv.play upper).
Local Abbreviation correct_count := (More.correct_count upper).
Local Abbreviation ask_no_players := (Game.ask_no_players int).
Local Abbreviation ask_no_questions := (Game.ask_no_questions int).
Local Abbreviation main := (Game.main int upper).
Local Abbreviation ascii_table := (Spec.ascii_table upper).

(* ================================================================= *)
(** ** Runs *)

Lemma emit_nil {A} (r : run A) : emit [] r = r.
Proof. destruct r; reflexivity. Qed.

Lemma emit_emit {A} (e1 e2 : list event) (r : run A) :
  emit e1 (emit e2 r) = emit (e1 ++ e2) r.
Proof. unfold emit; simpl. now rewrite app_assoc. Qed.

Lemma bind_ok {A B} (m : M A) (f : A -> M B) ins a ins' tr :
  m ins = Run (Ok a) ins' tr -> bind m f ins = emit tr (f a ins').
Proof. intros H. unfold bind. now rewrite H. Qed.

Lemma bind_raise {A B} (m : M A) (f : A -> M B) ins e ins' tr :
  m ins = Run (Raise e) ins' tr -> bind m f ins = Run (Raise e) ins' tr.
Proof. intros H. unfold bind. now rewrite H. Qed.

Lemma bind_trace {A B} (m : M A) (f : A -> M B) ins ev :
  In ev (trace (bind m f ins)) ->
  In ev (trace (m ins))
  \/ exists a, result (m ins) = Ok a /\ In ev (trace (f a (stdin (m ins)))).
Proof.
  unfold bind. destruct (result (m ins)) as [a|e] eqn:E; simpl.
  - rewrite in_app_iff. intros [H|H]; [now left | right; eauto].
  - now left.
Qed.

Lemma bind_result_ok {A B} (m : M A) (f : A -> M B) ins b :
  result (bind m f ins) = Ok b ->
  exists a, result (m ins) = Ok a /\ result (f a (stdin (m ins))) = Ok b.
Proof.
  unfold bind. destruct (result (m ins)) as [a|e]; simpl; [eauto | discriminate].
Qed.

(* ================================================================= *)
(** ** The entry flow *)

Section EntryFlow.

Variable get : string -> response.
Variable charref_sub : string -> string.
Variable shuffle : list string -> list string.

Lemma no_request_app tr1 tr2 :
  no_request tr1 -> no_request tr2 -> no_request (tr1 ++ tr2).
Proof.
  intros H1 H2 url H. apply in_app_or in H as [H|H]; [eapply H1 | eapply H2]; eauto.
Qed.

Lemma no_request_emit {A} evs (r : run A) :
  no_request evs -> no_request (trace r) -> no_request (trace (emit evs r)).
Proof. intros; simpl; now apply no_request_app. Qed.

Lemma no_request_bind {A B} (m : M A) (f : A -> M B) ins :
  no_request (trace (m ins)) ->
  (forall a ins', no_request (trace (f a ins'))) ->
  no_request (trace (bind m f ins)).
Proof.
  intros Hm Hf url H. apply bind_trace in H as [H | (a & _ & H)].
  - eapply Hm; eauto.
  - eapply Hf; eauto.
Qed.

(** [H] finds a request in a trace written out that holds none. *)
Ltac plain_hyp H :=
  simpl in H;
  repeat (apply in_app_or in H; simpl in H);
  repeat match goal with
         | H : _ \/ _ |- _ => destruct H
         | H : In _ (_ ++ _) |- _ => apply in_app_or in H
         | H : In _ (_ :: _) |- _ => simpl in H
         | H : In _ [] |- _ => destruct H
         end;
  try discriminate; try contradiction.

Ltac plain_trace :=
  let url := fresh "url" in
  let H := fresh "H" in
  intros url H; plain_hyp H.

Lemma ask_no_players_quiet ins : no_request (trace (ask_no_players ins)).
Proof.
  induction ins as [|line rest IH]; simpl.
  - plain_trace.
  - destruct (int line).
    + plain_trace.
    + apply no_request_emit; [plain_trace | exact IH].
Qed.

Lemma ask_name_quiet number player_list ins :
  no_request (trace (ask_name number player_list ins)).
Proof.
  induction ins as [|name rest IH]; simpl.
  - plain_trace.
  - destruct (negb _).
    + plain_trace.
    + apply no_request_emit; [plain_trace | exact IH].
Qed.

Lemma ask_names_quiet turns : forall number player_list ins,
  no_request (trace (ask_names turns number player_list ins)).
Proof.
  induction turns as [|turns IH]; intros; simpl.
  - plain_trace.
  - apply no_request_bind; [apply ask_name_quiet | intros; apply IH].
Qed.

Lemma ask_no_questions_quiet ins : forall v,
  no_request (trace (ask_no_questions v ins)).
Proof.
  induction ins as [|line rest IH]; intros v; simpl.
  - plain_trace.
  - destruct (int line) as [n|].
    + destruct (n <=? 50); [plain_trace|].
      apply no_request_emit; [plain_trace | apply IH].
    + destruct v as [n|]; [|plain_trace].
      destruct (n <=? 50); [plain_trace|].
      apply no_request_emit; [plain_trace | apply IH].
Qed.

Lemma ask_players_quiet players : forall prompt correct q_no score ins,
  no_request (trace (ask_players players prompt correct q_no score ins)).
Proof.
  induction players as [|player rest IH]; intros; simpl.
  - plain_trace.
  - apply no_request_bind.
    + destruct ins; plain_trace.
    + intros answer ins'. destruct (getitem player score); [apply IH | plain_trace].
Qed.

Lemma ask_questions_quiet items : forall players q_no score ins,
  no_request (trace (ask_questions charref_sub shuffle items players q_no score ins)).
Proof.
  induction items as [|item rest IH]; intros; simpl.
  - plain_trace.
  - apply no_request_bind; [apply ask_players_quiet|].
    intros score' ins'. apply no_request_bind; [plain_trace|].
    intros; apply IH.
Qed.

Lemma print_all_quiet lines ins : no_request (trace (print_all lines ins)).
Proof.
  revert ins. induction lines as [|line rest IH]; intros; cbn [print_all].
  - plain_trace.
  - apply no_request_bind; [plain_trace | intros; apply IH].
Qed.

Lemma calculate_winner_quiet score ins :
  no_request (trace (calculate_winner score ins)).
Proof.
  unfold calculate_winner. destruct (_ =? 0).
  - plain_trace.
  - apply no_request_bind; [plain_trace|]. intros.
    apply no_request_bind; [apply print_all_quiet|]. intros. plain_trace.
Qed.

Lemma write_score_to_csv_quiet score ins :
  no_request (trace (write_score_to_csv score ins)).
Proof.
  destruct score as [|[person first] rest]; cbn [write_score_to_csv];
    [plain_trace|].
  apply no_request_bind; [plain_trace|]. intros. plain_trace.
Qed.

Lemma ask_no_questions_le_50 ins : forall v n,
  result (ask_no_questions v ins) = Ok n -> n <= 50.
Proof.
  induction ins as [|line rest IH]; intros v n; simpl; [discriminate|].
  destruct (int line) as [k|].
  - destruct (k <=? 50) eqn:E; simpl.
    + intros [= <-]. now apply Z.leb_le.
    + apply IH.
  - destruct v as [k|]; [|discriminate].
    destruct (k <=? 50) eqn:E; simpl.
    + intros [= <-]. now apply Z.leb_le.
    + apply IH.
Qed.

Lemma existsb_eqb_In name (l : list string) :
  existsb (String.eqb name) l = true <-> In name l.
Proof.
  rewrite existsb_exists. split.
  - intros (x & Hx & E). apply String.eqb_eq in E. now subst.
  - intros H. exists name. split; [assumption | apply String.eqb_refl].
Qed.

(** The first answer to the question-count prompt is not a number: the
    handler of line 63 prints its message and falls through to the test
    of line 65, which reads [no_questions] before anything was assigned
    to it, and the loop ends with [NameError]. *)
Lemma first_question_count_not_a_number line rest :
  int line = None ->
  ask_no_questions None (line :: rest)
  = Run (Raise NameError) rest
      [Prompted "How many questions would you like to have? ";
       Printed "Please, give a number"].
Proof. intros H. simpl. now rewrite H. Qed.

(** C3, amended: every request of a run asks for a count that is at
    most 50 and no lower bound is enforced.  A count above 50 is refused
    and asked again, a count of 50 or less (zero and negative counts
    too) is accepted, and the prompt loop sends no request. *)
Theorem question_count_at_most_50 :
  (forall ins url,
      In (Requested url) (trace (main get charref_sub shuffle ins)) ->
      exists n, n <= 50 /\ url = api_url n)
  /\ (forall v line rest n,
        int line = Some n -> 50 < n ->
        ask_no_questions v (line :: rest)
        = emit [Prompted "How many questions would you like to have? ";
                Printed "Sorry, the maximum number of questions is 50."]
            (ask_no_questions (Some n) rest))
  /\ (forall v line rest n,
        int line = Some n -> n <= 50 ->
        ask_no_questions v (line :: rest)
        = Run (Ok n) rest
            [Prompted "How many questions would you like to have? ";
             Printed (thanks n)])
  /\ (forall v ins, no_request (trace (ask_no_questions v ins))).
Proof.
  repeat split.
  - intros ins url H. unfold main in H.
    apply bind_trace in H as [H | (_ & _ & H)]; [plain_hyp H|].
    apply bind_trace in H as [H | (no_players & _ & H)];
      [now apply ask_no_players_quiet in H|].
    apply bind_trace in H as [H | (player_list & _ & H)];
      [now apply ask_names_quiet in H|].
    apply bind_trace in H as [H | (n & Hn & H)];
      [now apply ask_no_questions_quiet in H|].
    apply ask_no_questions_le_50 in Hn.
    apply bind_trace in H as [H | (response & _ & H)].
    + unfold get_questions in H.
      apply bind_trace in H as [H | (r & _ & H)].
      * destruct H as [[= <-] | []]. eauto.
      * apply bind_trace in H as [H | (? & _ & H)].
        -- destruct (negb _); plain_hyp H.
        -- plain_hyp H.
    + apply bind_trace in H as [H | (score & _ & H)];
        [now apply ask_questions_quiet in H|].
      apply bind_trace in H as [H | (? & _ & H)];
        [now apply calculate_winner_quiet in H|].
      now apply write_score_to_csv_quiet in H.
  - intros v line rest n Hint Hn. simpl. rewrite Hint.
    destruct (n <=? 50) eqn:E; [apply Z.leb_le in E; lia | reflexivity].
  - intros v line rest n Hint Hn. simpl. rewrite Hint.
    destruct (n <=? 50) eqn:E; [reflexivity | apply Z.leb_gt in E; lia].
  - intros v ins. apply ask_no_questions_quiet.
Qed.

(** C5, amended: a proposed name is accepted, and appended to the
    player list, exactly when it is not in the list yet, the empty name
    like any other; a name that is in the list is refused and the same
    player is asked again. *)
Theorem name_accepted_iff_new number player_list name rest :
  (~ In name player_list ->
   ask_name number player_list (name :: rest)
   = Run (Ok (player_list ++ [name])) rest
       [Prompted ("Player " ++ str number ++ " name: ")])
  /\ (In name player_list ->
      ask_name number player_list (name :: rest)
      = emit [Prompted ("Player " ++ str number ++ " name: ");
              Printed ("The name is already taken. Please give another name." ++ nl)]
          (ask_name number player_list rest)).
Proof.
  split; intros H; cbn [ask_name].
  - destruct (existsb (String.eqb name) player_list) eqn:E; [|reflexivity].
    apply existsb_eqb_In in E. contradiction.
  - apply existsb_eqb_In in H. now rewrite H.
Qed.

End EntryFlow.

Lemma name_accepted_iff_new_witness :
  ask_name 2 ["A"] ["B"] = Run (Ok ["A"; "B"]) [] [Prompted "Player 2 name: "]
  /\ ask_name 2 ["A"] ["A"; "B"]
     = emit [Prompted "Player 2 name: ";
             Printed ("The name is already taken. Please give another name." ++ nl)]
         (ask_name 2 ["A"] ["B"]).
Proof.
  split.
  - apply (proj1 (name_accepted_iff_new 2 ["A"] "B" [])).
    simpl. intros [H|[]]. discriminate.
  - apply (proj2 (name_accepted_iff_new 2 ["A"] "A" ["B"])).
    simpl. now left.
Defined.

(** C5 as stated fails: the empty name is accepted. *)
Lemma empty_name_is_accepted :
  ask_name 1 [] [EmptyString; "A"]
  = Run (Ok [EmptyString]) ["A"] [Prompted "Player 1 name: "].
Proof. reflexivity. Qed.

(* ================================================================= *)
(** ** The winner *)

Lemma fold_add (l : list Z) : forall a, fold_left Z.add l a = a + sum l.
Proof.
  unfold sum. induction l as [|x l IH]; intros a; simpl; [lia|].
  rewrite IH, (IH x). lia.
Qed.

Lemma sum_cons x l : sum (x :: l) = x + sum l.
Proof. unfold sum; simpl. now rewrite fold_add. Qed.

Lemma sum_points l : Forall is_point l -> 0 <= sum l.
Proof.
  induction 1 as [|x l Hx _ IH]; [reflexivity|].
  rewrite sum_cons. destruct Hx; lia.
Qed.

Lemma print_all_run lines : forall ins,
  print_all lines ins = Run (Ok tt) ins (map Printed lines).
Proof.
  induction lines as [|line rest IH]; intros ins; [reflexivity|].
  cbn [print_all]. unfold bind at 1. simpl. now rewrite IH.
Qed.

Lemma with_total_app t l1 l2 :
  with_total t (l1 ++ l2) = with_total t l1 ++ with_total t l2.
Proof. unfold with_total. now rewrite filter_app, map_app. Qed.

Lemma with_total_above t entries :
  Forall (fun x => x < t) (map total entries) -> with_total t entries = [].
Proof.
  unfold with_total. induction entries as [|e l IH]; intros H; [reflexivity|].
  inversion H as [|? ? Hlt Hl]; subst. simpl.
  destruct (total e =? t) eqn:E; [apply Z.eqb_eq in E; lia | now apply IH].
Qed.

(** The loop of [calculate_winner] after the entries [seen], none of
    which has a negative total. *)
Lemma count_invariant (seen : score_table) :
  Forall (fun x => 0 <= x) (map total seen) ->
  let t := fold_left count seen (Tally (-1) [] []) in
  (seen = [] /\ highest_score t = -1 /\ persons_with_highest_score t = [])
  \/ (In (highest_score t) (map total seen)
      /\ Forall (fun x => x <= highest_score t) (map total seen)
      /\ persons_with_highest_score t = with_total (highest_score t) seen).
Proof.
  induction seen as [|[person scores] seen IH] using rev_ind; intros Hpos t.
  - left. repeat split.
  - right. subst t. rewrite map_app in Hpos. apply Forall_app in Hpos as [Hseen He].
    inversion He as [|? ? Hp _]; subst. unfold total in Hp; simpl in Hp.
    rewrite fold_left_app. cbn [fold_left].
    specialize (IH Hseen). cbv zeta in IH.
    set (t := fold_left count seen (Tally (-1) [] [])) in *.
    rewrite !map_app, with_total_app. cbn [map]. unfold count.
    change (total (person, scores)) with (sum (values scores)).
    destruct IH as [(-> & Hh & Hl) | (Hin & Hmax & Hl)].
    + rewrite Hh. destruct (sum (values scores) >? -1) eqn:E;
        [|rewrite Z.gtb_ltb in E; apply Z.ltb_ge in E; lia].
      cbn [highest_score persons_with_highest_score app map].
      repeat split.
      * now left.
      * constructor; [lia | constructor].
      * unfold with_total. simpl. unfold total. simpl.
        now rewrite Z.eqb_refl.
    + destruct (sum (values scores) >? highest_score t) eqn:E.
      * rewrite Z.gtb_ltb in E; apply Z.ltb_lt in E.
        cbn [highest_score persons_with_highest_score].
        repeat split.
        -- apply in_or_app. right. now left.
        -- apply Forall_app. split.
           ++ eapply Forall_impl; [|exact Hmax]. simpl. intros; lia.
           ++ constructor; [lia | constructor].
        -- rewrite with_total_above.
           ++ unfold with_total, total. simpl. now rewrite Z.eqb_refl.
           ++ eapply Forall_impl; [|exact Hmax]. simpl. intros; lia.
      * rewrite Z.gtb_ltb in E; apply Z.ltb_ge in E.
        destruct (sum (values scores) =? highest_score t) eqn:E2;
          cbn [highest_score persons_with_highest_score].
        -- apply Z.eqb_eq in E2. repeat split.
           ++ apply in_or_app. now left.
           ++ apply Forall_app. split; [exact Hmax|].
              constructor; [lia | constructor].
           ++ rewrite Hl. f_equal. unfold with_total, total. simpl.
              rewrite E2. now rewrite Z.eqb_refl.
        -- repeat split.
           ++ apply in_or_app. now left.
           ++ apply Forall_app. split; [exact Hmax|].
              constructor; [lia | constructor].
           ++ rewrite Hl. unfold with_total at 3. unfold total. simpl.
              rewrite E2. simpl. now rewrite app_nil_r.
Qed.

Lemma points_ok_totals score :
  points_ok score -> Forall (fun x => 0 <= x) (map total score).
Proof.
  unfold points_ok. induction 1 as [|e l He _ IH]; simpl; constructor.
  - now apply sum_points.
  - exact IH.
Qed.

(** C4: on a table with a player at least, whose points are 0 or 1,
    [calculate_winner] finds the highest of the players' totals; when it
    is 0 it prints the no-points message and no name; otherwise it prints
    the players whose total is the highest, all of them, in the table's
    order, between the heading and the congratulations. *)
Theorem calculate_winner_announces_highest (score : score_table) ins :
  score <> [] ->
  points_ok score ->
  exists highest,
    In highest (map total score)
    /\ Forall (fun t => t <= highest) (map total score)
    /\ calculate_winner score ins
       = Run (Ok tt) ins
           (if highest =? 0 then
              [Printed "Sorry, no points. Better luck next time!"]
            else
              [Printed ("Player(s) with the highest score (" ++ str highest ++ "):")]
              ++ map Printed (with_total highest score)
              ++ [Printed "Congratulations!"]).
Proof.
  intros Hne Hok.
  destruct (count_invariant score (points_ok_totals score Hok))
    as [(-> & _) | (Hin & Hmax & Hl)]; [contradiction|].
  exists (highest_score (fold_left count score (Tally (-1) [] []))).
  repeat split; [exact Hin | exact Hmax |].
  unfold calculate_winner.
  destruct (_ =? 0); [reflexivity|].
  unfold bind, print. simpl. rewrite print_all_run. simpl.
  now rewrite Hl.
Qed.

Lemma calculate_winner_announces_highest_witness :
  exists highest,
    In highest (map total Sample.scores)
    /\ Forall (fun t => t <= highest) (map total Sample.scores)
    /\ calculate_winner Sample.scores []
       = Run (Ok tt) []
           (if highest =? 0 then
              [Printed "Sorry, no points. Better luck next time!"]
            else
              [Printed ("Player(s) with the highest score (" ++ str highest ++ "):")]
              ++ map Printed (with_total highest Sample.scores)
              ++ [Printed "Congratulations!"]).
Proof.
  apply (calculate_winner_announces_highest Sample.scores []).
  - discriminate.
  - unfold points_ok, is_point, Sample.scores; simpl.
    repeat (apply Forall_cons || apply Forall_nil); simpl; auto.
Defined.

(** C10: on the empty table the highest score stays at -1, which is
    not 0: the heading reports -1, no name follows, and the
    congratulations are printed. *)
Theorem calculate_winner_empty ins :
  calculate_winner [] ins
  = Run (Ok tt) ins
      [Printed "Player(s) with the highest score (-1):";
       Printed "Congratulations!"].
Proof. reflexivity. Qed.

(* ================================================================= *)
(** ** Dictionaries and numerals *)

Section Dict.

Context {V : Type}.
Implicit Types (d : dict V) (k : string) (v : V).

Lemma getitem_setitem k k' v d :
  getitem k (setitem k' v d) = if String.eqb k k' then Some v else getitem k d.
Proof.
  induction d as [|[k0 v0] d IH]; simpl.
  - now destruct (String.eqb k k').
  - destruct (String.eqb k' k0) eqn:E0; simpl.
    + apply String.eqb_eq in E0; subst k0.
      now destruct (String.eqb k k').
    + destruct (String.eqb k k0) eqn:E1.
      * apply String.eqb_eq in E1; subst k0.
        destruct (String.eqb k k') eqn:E2; [|reflexivity].
        apply String.eqb_eq in E2; subst k'.
        now rewrite String.eqb_refl in E0.
      * exact IH.
Qed.

Lemma getitem_in_keys k d : In k (keys d) <-> exists v, getitem k d = Some v.
Proof.
  induction d as [|[k0 v0] d IH]; simpl.
  - split; [intros [] | intros (v & [=])].
  - destruct (String.eqb k k0) eqn:E.
    + apply String.eqb_eq in E; subst. split; eauto.
    + apply String.eqb_neq in E. rewrite <- IH.
      split; [intros [H|H]; [congruence | assumption] | now right].
Qed.

Lemma keys_setitem_old k v d : In k (keys d) -> keys (setitem k v d) = keys d.
Proof.
  induction d as [|[k0 v0] d IH]; simpl; [intros []|].
  destruct (String.eqb k k0) eqn:E; simpl.
  - apply String.eqb_eq in E. now subst.
  - apply String.eqb_neq in E. intros [H|H]; [congruence|]. now rewrite IH.
Qed.

Lemma setitem_new k v d : ~ In k (keys d) -> setitem k v d = d ++ [(k, v)].
Proof.
  induction d as [|[k0 v0] d IH]; simpl; [reflexivity|].
  intros H. destruct (String.eqb k k0) eqn:E.
  - apply String.eqb_eq in E. subst. exfalso. apply H. now left.
  - rewrite IH; [reflexivity | intros Hin; apply H; now right].
Qed.

Lemma in_keys_setitem k k' v d :
  In k (keys (setitem k' v d)) <-> k = k' \/ In k (keys d).
Proof.
  rewrite !getitem_in_keys, getitem_setitem.
  destruct (String.eqb k k') eqn:E.
  - apply String.eqb_eq in E. split; eauto.
  - apply String.eqb_neq in E. split; [eauto | intros [H|H]; [contradiction | exact H]].
Qed.

Lemma values_setitem (P : V -> Prop) k v d :
  P v -> Forall P (values d) -> Forall P (values (setitem k v d)).
Proof.
  intros Hv. induction d as [|[k0 v0] d IH]; simpl; intros H.
  - now constructor.
  - inversion H; subst. destruct (String.eqb k k0); simpl; constructor; auto.
Qed.

End Dict.

Lemma to_uint_not_nil p : Pos.to_uint p <> Nil.
Proof.
  intros H. pose proof (DecimalPos.Unsigned.of_to p) as E.
  rewrite H in E. discriminate.
Qed.

Lemma str_inj a b : str a = str b -> a = b.
Proof.
  unfold str. intros H. apply DecimalZ.to_int_inj.
  assert (N : forall z, Z.to_int z <> Pos Nil /\ Z.to_int z <> Neg Nil).
  { intros [|p|p]; simpl; split; try discriminate;
      intros [= E]; now apply to_uint_not_nil in E. }
  pose proof (NilZero.isi (Z.to_int a) (proj1 (N a)) (proj2 (N a))) as Ea.
  pose proof (NilZero.isi (Z.to_int b) (proj1 (N b)) (proj2 (N b))) as Eb.
  rewrite H in Ea. congruence.
Qed.

(* ================================================================= *)
(** ** The quiz *)

Section Quiz.

Variable charref_sub : string -> string.
Variable shuffle : list string -> list string.

Lemma keys_record correct q score turn :
  keys (record correct q score turn) = keys score.
Proof.
  destruct turn as [player answer]. unfold record.
  destruct (getitem player score) as [points|] eqn:E; [|reflexivity].
  apply keys_setitem_old. apply getitem_in_keys. eauto.
Qed.

Lemma keys_round correct q players : forall ins score,
  keys (round correct q score players ins) = keys score.
Proof.
  unfold round. induction players as [|p players IH]; intros [|a ins] score;
    cbn [combine fold_left]; try reflexivity.
  now rewrite IH, keys_record.
Qed.

Lemma ask_players_run players prompt correct q : forall score ins,
  incl players (keys score) ->
  (List.length players <= List.length ins)%nat ->
  exists tr,
    ask_players players prompt correct q score ins
    = Run (Ok (round correct q score players ins)) (skipn (List.length players) ins) tr.
Proof.
  induction players as [|p players IH]; intros score ins Hk Hlen.
  - exists []. reflexivity.
  - destruct ins as [|a ins]; [simpl in Hlen; lia|].
    cbn [ask_players]. unfold bind at 1. cbn [input result stdin trace].
    assert (Hp : In p (keys score)) by (apply Hk; now left).
    apply getitem_in_keys in Hp as [points Hp]. rewrite Hp.
    destruct (IH (record correct q score (p, a)) ins) as [tr Htr].
    + rewrite keys_record. intros x Hx. apply Hk. now right.
    + simpl in Hlen. lia.
    + unfold record in Htr. rewrite Hp in Htr. rewrite Htr.
      eexists. unfold round. cbn [combine fold_left record List.length skipn].
      rewrite Hp. reflexivity.
Qed.

Lemma ask_players_eof players prompt correct q : forall score ins,
  incl players (keys score) ->
  (List.length ins < List.length players)%nat ->
  result (ask_players players prompt correct q score ins) = Raise EOFError.
Proof.
  induction players as [|p players IH]; intros score ins Hk Hlen.
  - simpl in Hlen. lia.
  - destruct ins as [|a ins]; [reflexivity|].
    cbn [ask_players]. unfold bind at 1. cbn [input result stdin trace].
    assert (Hp : In p (keys score)) by (apply Hk; now left).
    apply getitem_in_keys in Hp as [points Hp]. rewrite Hp.
    cbn [emit result].
    pose proof (IH (record correct q score (p, a)) ins) as H.
    unfold record in H. rewrite Hp in H. apply H.
    + rewrite keys_setitem_old by (apply getitem_in_keys; eauto).
      intros x Hx. apply Hk. now right.
    + simpl in Hlen. lia.
Qed.

Lemma ask_questions_run items players : forall q score ins,
  incl players (keys score) ->
  (List.length items * List.length players <= List.length ins)%nat ->
  exists tr,
    ask_questions charref_sub shuffle items players q score ins
    = Run (Ok (play charref_sub items players q score ins))
        (skipn (List.length items * List.length players) ins) tr.
Proof.
  induction items as [|item items IH]; intros q score ins Hk Hlen.
  - exists []. reflexivity.
  - cbn [ask_questions play].
    set (correct := unescape charref_sub (correct_answer item)).
    match goal with
    | |- context [ask_players players ?p correct q score] =>
        destruct (ask_players_run players p correct q score ins Hk) as [tr1 H1]
    end.
    { simpl in Hlen. lia. }
    destruct (IH (q + 1) (round correct q score players ins)
                (skipn (List.length players) ins)) as [tr2 H2].
    { now rewrite keys_round. }
    { rewrite length_skipn. simpl in Hlen. lia. }
    eexists. unfold bind at 1. rewrite H1. cbn [result stdin trace].
    unfold bind at 1. cbn [print result stdin trace].
    rewrite H2. unfold emit. cbn [result stdin trace].
    rewrite skipn_skipn. cbn [List.length Nat.mul].
    rewrite (Nat.add_comm (List.length items * List.length players)). reflexivity.
Qed.

End Quiz.

Lemma point_record correct q score p0 a p key :
  In p0 (keys score) ->
  point (record correct q score (p0, a)) p key
  = if (String.eqb p p0 && String.eqb key (str q))%bool
    then Some (player_points a correct)
    else point score p key.
Proof.
  intros H. apply getitem_in_keys in H as [points H].
  unfold point, record. rewrite H, getitem_setitem.
  destruct (String.eqb p p0) eqn:E; simpl; [|reflexivity].
  apply String.eqb_eq in E; subst p0. rewrite H, getitem_setitem.
  now destruct (String.eqb key (str q)).
Qed.

Lemma point_round_other correct q key p players : forall ins score,
  incl players (keys score) ->
  key <> str q \/ ~ In p players ->
  point (round correct q score players ins) p key = point score p key.
Proof.
  unfold round.
  induction players as [|p0 players IH]; intros [|a ins] score Hk Hn;
    cbn [combine fold_left]; try reflexivity.
  rewrite IH.
  - rewrite point_record by (apply Hk; now left).
    destruct (String.eqb p p0) eqn:E1; [|reflexivity].
    destruct (String.eqb key (str q)) eqn:E2; [|reflexivity].
    apply String.eqb_eq in E1, E2. subst. simpl in Hn.
    destruct Hn as [Hn | Hn]; exfalso; apply Hn; [reflexivity | now left].
  - rewrite keys_record. intros x Hx. apply Hk. now right.
  - simpl in Hn.
    destruct Hn as [Hn | Hn]; [now left | right; intros Hin; apply Hn; now right].
Qed.

Lemma point_round_at correct q players : forall ins score j p a,
  incl players (keys score) ->
  NoDup players ->
  nth_error players j = Some p ->
  nth_error ins j = Some a ->
  point (round correct q score players ins) p (str q)
  = Some (player_points a correct).
Proof.
  unfold round.
  induction players as [|p0 players IH]; intros ins score j p a Hk Hnd Hp Ha.
  - now destruct j.
  - destruct ins as [|a0 ins]; [now destruct j|].
    inversion Hnd as [|? ? Hp0 Hnd']; subst.
    cbn [combine fold_left].
    assert (Hk' : incl players (keys (record correct q score (p0, a0)))).
    { rewrite keys_record. intros x Hx. apply Hk. now right. }
    destruct j as [|j]; simpl in Hp, Ha.
    + injection Hp as <-. injection Ha as <-.
      pose proof (point_round_other correct q (str q) p0 players ins
                    (record correct q score (p0, a0)) Hk' (or_intror Hp0)) as E.
      unfold round in E. rewrite E.
      rewrite point_record by (apply Hk; now left).
      now rewrite !String.eqb_refl.
    + eapply IH; eauto.
Qed.

Section QuizPoints.

Variable charref_sub : string -> string.

Lemma point_play_other items players p key : forall q score ins,
  incl players (keys score) ->
  (forall i, (i < List.length items)%nat -> key <> str (q + Z.of_nat i)) ->
  point (play charref_sub items players q score ins) p key = point score p key.
Proof.
  induction items as [|item items IH]; intros q score ins Hk Hkey;
    cbn [play]; [reflexivity|].
  rewrite IH.
  - apply point_round_other; [exact Hk|]. left.
    specialize (Hkey O). rewrite Z.add_0_r in Hkey. apply Hkey. simpl. lia.
  - now rewrite keys_round.
  - intros i Hi. replace (q + 1 + Z.of_nat i) with (q + Z.of_nat (S i)) by lia.
    apply Hkey. simpl. lia.
Qed.

Lemma nth_error_skipn {A} (l : list A) : forall n i,
  nth_error (skipn n l) i = nth_error l (n + i).
Proof.
  induction l as [|x l IH]; intros [|n] i; simpl; try reflexivity.
  - now destruct i.
  - apply IH.
Qed.

Lemma point_play items players : forall q score ins i j item p a,
  incl players (keys score) ->
  NoDup players ->
  nth_error items i = Some item ->
  nth_error players j = Some p ->
  nth_error ins (i * List.length players + j) = Some a ->
  point (play charref_sub items players q score ins) p (str (q + Z.of_nat i))
  = Some (player_points a (unescape charref_sub (correct_answer item))).
Proof.
  induction items as [|item0 items IH];
    intros q score ins i j item p a Hk Hnd Hi Hj Ha.
  - now destruct i.
  - cbn [play]. destruct i as [|i]; simpl in Hi.
    + injection Hi as <-. simpl in Ha. rewrite Z.add_0_r.
      rewrite point_play_other.
      * eapply point_round_at; eauto.
      * now rewrite keys_round.
      * intros i _ E. apply str_inj in E. lia.
    + replace (q + Z.of_nat (S i)) with (q + 1 + Z.of_nat i) by lia.
      eapply IH; eauto.
      * now rewrite keys_round.
      * rewrite nth_error_skipn. simpl in Ha. now rewrite Nat.add_assoc.
Qed.

End QuizPoints.

Lemma keys_empty_scores players p :
  In p (keys (empty_scores players)) <-> In p players.
Proof.
  unfold empty_scores.
  assert (G : forall score,
             In p (keys (fold_left (fun (score : score_table) player => setitem player [] score)
                           players score))
             <-> In p players \/ In p (keys score)).
  { induction players as [|p0 players IH]; intros score; simpl.
    - split; [now right | now intros [[] | H]].
    - rewrite IH, in_keys_setitem.
      split; [intros [H | [H | H]] | intros [[H | H] | H]]; subst; auto. }
  rewrite G. simpl. split; [now intros [H | []] | now left].
Qed.

Lemma getitem_empty_scores players p points :
  getitem p (empty_scores players) = Some points -> points = [].
Proof.
  unfold empty_scores.
  assert (G : forall score,
             (forall x, getitem p score = Some x -> x = []) ->
             getitem p (fold_left (fun (score : score_table) player => setitem player [] score)
                          players score) = Some points ->
             points = []).
  { induction players as [|p0 players IH]; intros score Hs; simpl.
    - apply Hs.
    - apply IH. intros x. rewrite getitem_setitem.
      destruct (String.eqb p p0); [congruence | apply Hs]. }
  apply G. discriminate.
Qed.

Lemma player_points_same answer correct :
  upper answer = upper correct -> player_points answer correct = 1.
Proof. intros H. unfold player_points. now rewrite H, String.eqb_refl. Qed.

Lemma player_points_differ answer correct :
  upper answer <> upper correct -> player_points answer correct = 0.
Proof.
  intros H. unfold player_points.
  now destruct (String.eqb_spec (upper answer) (upper correct)).
Qed.

Lemma in_range_iff lo hi c :
  in_range lo hi c = true <-> (lo <= code c <= hi)%nat.
Proof.
  unfold in_range. rewrite andb_true_iff, !Nat.leb_le. reflexivity.
Qed.

Lemma upper_char_same a b : same_letter a b -> upper_char a = upper_char b.
Proof.
  assert (G : forall x, is_lower x = true ->
                upper_char (ascii_of_nat (code x - 32)) = upper_char x).
  { intros x Hx. unfold upper_char at 2. rewrite Hx.
    unfold upper_char.
    destruct (is_lower (ascii_of_nat (code x - 32))) eqn:E; [|reflexivity].
    unfold is_lower in *. apply in_range_iff in Hx, E.
    unfold code in *. rewrite nat_ascii_embedding in E; lia. }
  intros [-> | [[Ha ->] | [Hb ->]]]; [reflexivity | symmetry |]; now apply G.
Qed.

Lemma upper_same_but_case s : forall t,
  same_but_case s t -> ascii_upper s = ascii_upper t.
Proof.
  induction s as [|a s IH]; intros [|b t]; simpl; try easy.
  intros [Hab Hst]. f_equal; [now apply upper_char_same | now apply IH].
Qed.

Lemma length_upper s : String.length (ascii_upper s) = String.length s.
Proof. induction s; simpl; congruence. Qed.

Lemma lstrip_shorter s :
  lstrip s = s \/ (String.length (lstrip s) < String.length s)%nat.
Proof.
  induction s as [|c s IH]; simpl; [now left|].
  destruct (is_space c); [right | now left].
  destruct IH as [-> | H]; lia.
Qed.

Lemma rstrip_shorter s :
  rstrip s = s \/ (String.length (rstrip s) < String.length s)%nat.
Proof.
  induction s as [|c s IH]; simpl; [now left|].
  destruct IH as [-> | H].
  - destruct s; [|now left]. destruct (is_space c); [right; simpl; lia | now left].
  - right. destruct (rstrip s); [destruct (is_space c)|]; simpl in *; lia.
Qed.

Lemma strip_shorter s :
  strip s = s \/ (String.length (strip s) < String.length s)%nat.
Proof.
  unfold strip.
  destruct (rstrip_shorter s) as [-> | H]; [apply lstrip_shorter|].
  right. destruct (lstrip_shorter (rstrip s)) as [-> | H']; lia.
Qed.

Lemma is_ascii_lstrip s : is_ascii s = true -> is_ascii (lstrip s) = true.
Proof.
  induction s as [|c s IH]; [trivial|]. intros H. cbn [lstrip].
  destruct (is_space c); [|exact H].
  apply IH. cbn [is_ascii] in H. now apply andb_true_iff in H.
Qed.

Lemma is_ascii_rstrip s : is_ascii s = true -> is_ascii (rstrip s) = true.
Proof.
  induction s as [|c s IH]; [trivial|]. cbn [is_ascii rstrip].
  rewrite andb_true_iff. intros [Hc Hs]. specialize (IH Hs).
  destruct (rstrip s) as [|c' r].
  - destruct (is_space c); [reflexivity|]. cbn [is_ascii]. now rewrite Hc.
  - cbn [is_ascii] in *. now rewrite Hc.
Qed.

Lemma player_points_case answer correct :
  ascii_table ->
  is_ascii answer = true -> is_ascii correct = true ->
  same_but_case answer correct ->
  player_points answer correct = 1.
Proof.
  intros Hup Ha Hc H. apply player_points_same.
  rewrite (Hup _ Ha), (Hup _ Hc). now apply upper_same_but_case.
Qed.

Lemma player_points_blanks answer correct :
  ascii_table ->
  is_ascii answer = true ->
  strip answer = correct -> answer <> correct ->
  player_points answer correct = 0.
Proof.
  intros Hup Ha <- Hne. apply player_points_differ. intros H.
  rewrite (Hup _ Ha) in H.
  rewrite (Hup (strip answer)) in H
    by (unfold strip; now apply is_ascii_lstrip, is_ascii_rstrip).
  apply (f_equal String.length) in H. rewrite !length_upper in H.
  destruct (strip_shorter answer) as [E | E]; [congruence | lia].
Qed.

(** C1, amended: the point recorded for a player at a question is 1
    when the line the player typed, as typed and upper-cased by
    [str.upper], is the unescaped correct answer upper-cased, and 0 when
    it is not.  On texts of ASCII characters, where [str.upper] is the
    table of a..z, a line that differs from the correct answer in letter
    case only scores 1; the line is not trimmed, so the correct answer
    with blanks around it scores 0. *)
Theorem quiz_point_iff_same_upper charref_sub shuffle response player_list ins :
  ascii_table ->
  NoDup player_list ->
  (List.length (results response) * List.length player_list <= List.length ins)%nat ->
  exists score rest tr,
    quiz charref_sub shuffle response player_list ins = Run (Ok score) rest tr
    /\ forall i j item player answer,
         nth_error (results response) i = Some item ->
         nth_error player_list j = Some player ->
         nth_error ins (i * List.length player_list + j) = Some answer ->
         let correct := unescape charref_sub (correct_answer item) in
         let recorded := point score player (str (Z.of_nat i + 1)) in
         (upper answer = upper correct -> recorded = Some 1)
         /\ (upper answer <> upper correct -> recorded = Some 0)
         /\ (is_ascii answer = true -> is_ascii correct = true ->
             same_but_case answer correct -> recorded = Some 1)
         /\ (is_ascii answer = true ->
             strip answer = correct -> answer <> correct -> recorded = Some 0).
Proof.
  intros Hup Hnd Hlen. unfold quiz.
  assert (Hk : incl player_list (keys (empty_scores player_list))).
  { intros p Hp. now apply keys_empty_scores. }
  destruct (ask_questions_run charref_sub shuffle (results response) player_list
              1 (empty_scores player_list) ins Hk Hlen) as [tr Hrun].
  eexists _, _, tr. split; [exact Hrun|].
  intros i j item player answer Hi Hj Ha. cbv zeta.
  rewrite (Z.add_comm (Z.of_nat i) 1).
  rewrite (point_play charref_sub _ _ 1 _ _ i j item player answer Hk Hnd Hi Hj Ha).
  repeat split; intros; f_equal.
  - now apply player_points_same.
  - now apply player_points_differ.
  - now apply player_points_case.
  - now apply player_points_blanks.
Qed.

Section RoundShape.

Variables (correct : string) (q : Z) (R : list string).
Hypothesis fresh : ~ In (str q) R.

Lemma keys_setitem_round (points : dict Z) v :
  keys points = R \/ keys points = R ++ [str q] ->
  keys (setitem (str q) v points) = R ++ [str q].
Proof.
  intros [H|H].
  - rewrite setitem_new by now rewrite H.
    unfold keys in *. now rewrite map_app, H.
  - rewrite keys_setitem_old; [exact H|]. rewrite H. apply in_or_app. right. now left.
Qed.

Lemma is_point_player_points a c : is_point (player_points a c).
Proof. unfold is_point, player_points. destruct (String.eqb _ _); auto. Qed.

Lemma record_in_round score p0 a :
  in_round q R score ->
  in_round q R (record correct q score (p0, a))
  /\ (In p0 (keys score) -> asked q R p0 (record correct q score (p0, a)))
  /\ (forall p, asked q R p score -> asked q R p (record correct q score (p0, a))).
Proof.
  intros Hs. unfold record.
  destruct (getitem p0 score) as [points0|] eqn:E0.
  - destruct (Hs _ _ E0) as [Hv Hk].
    repeat split.
    + rewrite getitem_setitem in H.
      destruct (String.eqb p p0); [|now apply (Hs _ _ H)].
      injection H as <-. apply values_setitem; [apply is_point_player_points | exact Hv].
    + rewrite getitem_setitem in H.
      destruct (String.eqb p p0); [|now apply (Hs _ _ H)].
      injection H as <-. right. now apply keys_setitem_round.
    + intros _ points H. rewrite getitem_setitem, String.eqb_refl in H.
      injection H as <-. now apply keys_setitem_round.
    + intros p Hp points H. rewrite getitem_setitem in H.
      destruct (String.eqb p p0); [|now apply Hp].
      injection H as <-. now apply keys_setitem_round.
  - repeat split; try (now apply (Hs _ _ H)); auto.
    intros H. apply getitem_in_keys in H as [v H]. congruence.
Qed.

Lemma round_in_round players : forall ins score,
  in_round q R score ->
  incl players (keys score) ->
  (List.length players <= List.length ins)%nat ->
  in_round q R (round correct q score players ins)
  /\ (forall p, In p players \/ asked q R p score ->
                asked q R p (round correct q score players ins)).
Proof.
  unfold round.
  induction players as [|p0 players IH]; intros ins score Hs Hk Hlen.
  - simpl. split; [exact Hs | intros p [[]|H]; exact H].
  - destruct ins as [|a ins]; [simpl in Hlen; lia|].
    cbn [combine fold_left].
    destruct (record_in_round score p0 a Hs) as (Hs' & Hp0 & Hkeep).
    destruct (IH ins (record correct q score (p0, a)) Hs') as [Hs'' Hask].
    + rewrite keys_record. intros x Hx. apply Hk. now right.
    + simpl in Hlen. lia.
    + split; [exact Hs''|]. intros p [[<- | Hp] | Hp]; apply Hask.
      * right. apply Hp0. apply Hk. now left.
      * now left.
      * right. now apply Hkeep.
Qed.

Lemma round_shape players ins score :
  has_shape R score ->
  incl players (keys score) ->
  incl (keys score) players ->
  (List.length players <= List.length ins)%nat ->
  has_shape (R ++ [str q]) (round correct q score players ins).
Proof.
  intros Hs Hk Hk' Hlen.
  destruct (round_in_round players ins score) as [Hin Hask]; auto.
  - intros p points H. destruct (Hs _ _ H). auto.
  - intros p points H. split; [|now apply (Hin _ _ H)].
    apply (Hask p); [|exact H]. left. apply Hk'.
    rewrite <- (keys_round correct q players ins score).
    apply getitem_in_keys. eauto.
Qed.

End RoundShape.

Section QuizShape.

Variable charref_sub : string -> string.
Variable shuffle : list string -> list string.

Lemma play_shape items players : forall k score ins,
  has_shape (question_keys k) score ->
  incl players (keys score) ->
  incl (keys score) players ->
  (List.length items * List.length players <= List.length ins)%nat ->
  has_shape (question_keys (k + List.length items))
    (play charref_sub items players (Z.of_nat (S k)) score ins).
Proof.
  induction items as [|item items IH]; intros k score ins Hs Hk Hk' Hlen;
    cbn [play List.length].
  - now rewrite Nat.add_0_r.
  - replace (k + S (List.length items))%nat with (S k + List.length items)%nat by lia.
    replace (Z.of_nat (S k) + 1) with (Z.of_nat (S (S k))) by lia.
    apply IH.
    + unfold question_keys. rewrite seq_S, map_app. cbn [map Nat.add].
      apply round_shape; auto.
      * intros H. apply in_map_iff in H as (i & E & Hi).
        apply str_inj in E. apply in_seq in Hi. lia.
      * simpl in Hlen. lia.
    + now rewrite keys_round.
    + now rewrite keys_round.
    + rewrite length_skipn. simpl in Hlen. lia.
Qed.

Lemma ask_questions_eof items players : forall q score ins,
  incl players (keys score) ->
  (List.length ins < List.length items * List.length players)%nat ->
  result (ask_questions charref_sub shuffle items players q score ins)
  = Raise EOFError.
Proof.
  induction items as [|item items IH]; intros q score ins Hk Hlen;
    [simpl in Hlen; lia|].
  cbn [ask_questions].
  set (correct := unescape charref_sub (correct_answer item)).
  destruct (Nat.lt_ge_cases (List.length ins) (List.length players)) as [Hlt | Hge].
  - unfold bind at 1.
    match goal with
    | |- context [ask_players players ?p correct q score ins] =>
        rewrite (ask_players_eof players p correct q score ins Hk Hlt)
    end.
    reflexivity.
  - match goal with
    | |- context [ask_players players ?p correct q score] =>
        destruct (ask_players_run players p correct q score ins Hk Hge) as [tr1 H1]
    end.
    unfold bind at 1. rewrite H1. cbn [result stdin trace emit].
    unfold bind at 1. cbn [print result stdin trace emit].
    apply IH.
    + now rewrite keys_round.
    + rewrite length_skipn. simpl in Hlen. lia.
Qed.

(** With fewer lines than questions times players the quiz ends with
    [EOFError] and returns no table. *)
Lemma quiz_eof response player_list ins :
  (List.length ins < List.length (results response) * List.length player_list)%nat ->
  result (quiz charref_sub shuffle response player_list ins) = Raise EOFError.
Proof.
  intros H. apply ask_questions_eof; [|exact H].
  intros p Hp. now apply keys_empty_scores.
Qed.

(** C6: when the console has a line for every question and player,
    [quiz] returns a table whose players are those of the list, and each
    one has, in this order, the keys "1" to "n" of the n question
    records, with points 0 or 1. *)
Theorem quiz_score_shape response player_list ins :
  (List.length (results response) * List.length player_list <= List.length ins)%nat ->
  exists score rest tr,
    quiz charref_sub shuffle response player_list ins = Run (Ok score) rest tr
    /\ (forall player, In player (keys score) <-> In player player_list)
    /\ forall player,
         In player player_list ->
         exists points,
           getitem player score = Some points
           /\ keys points = question_keys (List.length (results response))
           /\ Forall is_point (values points).
Proof.
  intros Hlen. unfold quiz.
  assert (Hk : incl player_list (keys (empty_scores player_list))).
  { intros p Hp. now apply keys_empty_scores. }
  assert (Hk' : incl (keys (empty_scores player_list)) player_list).
  { intros p Hp. now apply keys_empty_scores. }
  destruct (ask_questions_run charref_sub shuffle (results response) player_list
              1 (empty_scores player_list) ins Hk Hlen) as [tr Hrun].
  eexists _, _, tr. split; [exact Hrun|].
  assert (Hkeys : forall items q score ins,
             keys (play charref_sub items player_list q score ins) = keys score).
  { induction items as [|item items IH]; intros; cbn [play]; [reflexivity|].
    now rewrite IH, keys_round. }
  split.
  - intros player. rewrite Hkeys. apply keys_empty_scores.
  - intros player Hp.
    assert (Hin : In player (keys (play charref_sub (results response) player_list
                                     1 (empty_scores player_list) ins))).
    { rewrite Hkeys. now apply Hk. }
    apply getitem_in_keys in Hin as [points Hpoints].
    exists points. split; [exact Hpoints|].
    apply (play_shape (results response) player_list O (empty_scores player_list) ins)
      with (p := player); auto.
    intros p pts H. apply getitem_empty_scores in H. subst. split; [reflexivity | constructor].
Qed.

End QuizShape.

(* ================================================================= *)
(** ** The reader reads what the writer wrote *)

Lemma append_assoc (a b c : string) : ((a ++ b) ++ c = a ++ (b ++ c))%string.
Proof. induction a; simpl; congruence. Qed.

Lemma append_empty (a : string) : (a ++ EmptyString)%string = a.
Proof. induction a; simpl; congruence. Qed.

Section Reader.

Import Csv.

Implicit Types (s b rest : string) (fs : list string) (rs : list (list string)).

Lemma special_false c :
  special c = false ->
  Ascii.eqb c "," = false /\ Ascii.eqb c DQ = false /\ is_newline c = false.
Proof.
  unfold special, is_newline. rewrite !orb_false_iff. intros [[[H1 H2] H3] H4].
  now rewrite H3, H4.
Qed.

Lemma line_ends_plain c rest :
  is_newline c = false -> rest <> EmptyString -> line_ends c rest = false.
Proof.
  unfold is_newline, line_ends. rewrite orb_false_iff. intros [-> ->] H.
  destruct rest; [contradiction | reflexivity].
Qed.

(** Inside a quoted field the end of a line changes nothing. *)
Lemma feed_in_quotes c s b fs rs :
  Ascii.eqb c DQ = false ->
  feed (String c s) (Reader IN_QUOTED_FIELD b fs rs)
  = feed s (Reader IN_QUOTED_FIELD (b ++ String c EmptyString) fs rs).
Proof.
  intros H. cbn [feed]. unfold process_char. cbn [st]. rewrite H.
  unfold add_char. cbn [st buf fields rows].
  now destruct (line_ends c s).
Qed.

Lemma feed_escape s : forall b fs rs rest,
  feed (escape s ++ String DQ rest) (Reader IN_QUOTED_FIELD b fs rs)
  = feed (String DQ rest) (Reader IN_QUOTED_FIELD (b ++ s) fs rs).
Proof.
  induction s as [|c s IH]; intros b fs rs rest.
  - now rewrite append_empty.
  - cbn [escape]. destruct (Ascii.eqb c DQ) eqn:E.
    + apply Ascii.eqb_eq in E. subst c.
      change (String DQ (String DQ (escape s)) ++ String DQ rest)%string
        with (String DQ (String DQ (escape s ++ String DQ rest))).
      cbn [feed]. unfold process_char at 1. cbn [st].
      rewrite Ascii.eqb_refl. unfold goto. cbn [st buf fields rows].
      rewrite line_ends_plain by (reflexivity || discriminate).
      unfold process_char at 1. cbn [st]. rewrite Ascii.eqb_refl.
      unfold goto, add_char. cbn [st buf fields rows].
      rewrite line_ends_plain by (reflexivity || (destruct (escape s); discriminate)).
      rewrite IH. now rewrite append_assoc.
    + change (String c (escape s) ++ String DQ rest)%string
        with (String c (escape s ++ String DQ rest)).
      rewrite feed_in_quotes by exact E. rewrite IH. now rewrite append_assoc.
Qed.

Lemma feed_plain s : forall b fs rs rest,
  needs_quotes s = false -> rest <> EmptyString ->
  feed (s ++ rest) (Reader IN_FIELD b fs rs)
  = feed rest (Reader IN_FIELD (b ++ s) fs rs).
Proof.
  induction s as [|c s IH]; intros b fs rs rest Hq Hrest.
  - now rewrite append_empty.
  - cbn [needs_quotes] in Hq. apply orb_false_iff in Hq as [Hc Hq].
    apply special_false in Hc as (Hcomma & Hdq & Hnl).
    change (String c s ++ rest)%string with (String c (s ++ rest)).
    cbn [feed]. unfold process_char. cbn [st]. rewrite Hnl, Hcomma.
    rewrite line_ends_plain; [|exact Hnl | destruct s; [exact Hrest | discriminate]].
    unfold add_char. cbn [st buf fields rows].
    rewrite IH by assumption. now rewrite append_assoc.
Qed.

Lemma feed_quoted s st0 fs rs rest :
  st0 = START_RECORD \/ st0 = START_FIELD ->
  rest <> EmptyString ->
  feed (quoted s ++ rest) (Reader st0 EmptyString fs rs)
  = feed rest (Reader QUOTE_IN_QUOTED_FIELD s fs rs).
Proof.
  intros Hst Hrest. unfold quoted.
  change (String DQ (escape s ++ String DQ EmptyString) ++ rest)%string
    with (String DQ ((escape s ++ String DQ EmptyString) ++ rest)).
  rewrite append_assoc.
  change (String DQ EmptyString ++ rest)%string with (String DQ rest).
  cbn [feed].
  assert (E : process_char DQ (Reader st0 EmptyString fs rs)
              = Some (Reader IN_QUOTED_FIELD EmptyString fs rs)).
  { destruct Hst as [-> | ->]; reflexivity. }
  rewrite E.
  rewrite line_ends_plain by (reflexivity || (destruct (escape s); discriminate)).
  rewrite feed_escape. cbn [feed append].
  unfold process_char. cbn [st]. rewrite Ascii.eqb_refl.
  unfold goto. cbn [st buf fields rows].
  now rewrite line_ends_plain by (reflexivity || exact Hrest).
Qed.

Lemma feed_field s st0 fs rs rest :
  st0 = START_RECORD \/ st0 = START_FIELD ->
  rest <> EmptyString ->
  feed (field s ++ rest) (Reader st0 EmptyString fs rs)
  = feed rest (Reader (after_field s st0) s fs rs).
Proof.
  intros Hst Hrest. unfold field, after_field.
  destruct (needs_quotes s) eqn:Hq; [now apply feed_quoted|].
  destruct s as [|c s]; [reflexivity|].
  cbn [needs_quotes] in Hq. apply orb_false_iff in Hq as [Hc Hq].
  apply special_false in Hc as (Hcomma & Hdq & Hnl).
  change (String c s ++ rest)%string with (String c (s ++ rest)).
  cbn [feed].
  assert (E : process_char c (Reader st0 EmptyString fs rs)
              = Some (Reader IN_FIELD (String c EmptyString) fs rs)).
  { destruct Hst as [-> | ->]; unfold process_char, start_field; cbn [st];
      now rewrite Hnl, ?Hdq, ?Hcomma. }
  rewrite E.
  rewrite line_ends_plain; [|exact Hnl | destruct s; [exact Hrest | discriminate]].
  now rewrite feed_plain.
Qed.

Lemma feed_comma st0 b fs rs rest :
  st0 = START_RECORD /\ b = EmptyString \/ field_read st0 ->
  rest <> EmptyString ->
  feed (String "," rest) (Reader st0 b fs rs)
  = feed rest (Reader START_FIELD EmptyString (fs ++ [b]) rs).
Proof.
  intros Hst Hrest. cbn [feed].
  assert (E : process_char "," (Reader st0 b fs rs)
              = Some (Reader START_FIELD EmptyString (fs ++ [b]) rs)).
  { destruct Hst as [[-> ->] | [-> | [-> | ->]]]; reflexivity. }
  rewrite E. now rewrite line_ends_plain by (reflexivity || exact Hrest).
Qed.

Lemma line_ends_LF rest : line_ends LF rest = true.
Proof. now destruct rest. Qed.

Lemma feed_crlf st0 b fs rs rest :
  field_read st0 ->
  feed (crlf ++ rest) (Reader st0 b fs rs)
  = feed rest (Reader START_RECORD EmptyString [] (rs ++ [fs ++ [b]])).
Proof.
  intros Hst. unfold crlf.
  change (String CR (String LF EmptyString) ++ rest)%string
    with (String CR (String LF rest)).
  cbn [feed].
  assert (E : process_char CR (Reader st0 b fs rs)
              = Some (Reader EAT_CRNL EmptyString (fs ++ [b]) rs)).
  { destruct Hst as [-> | [-> | ->]]; reflexivity. }
  rewrite E. change (line_ends CR (String LF rest)) with false. cbv iota.
  change (process_char LF (Reader EAT_CRNL EmptyString (fs ++ [b]) rs))
    with (Some (Reader EAT_CRNL EmptyString (fs ++ [b]) rs)).
  cbv iota. now rewrite line_ends_LF.
Qed.

Lemma feed_crlf_empty rs rest :
  feed (crlf ++ rest) (Reader START_RECORD EmptyString [] rs)
  = feed rest (Reader START_RECORD EmptyString [] (rs ++ [[]])).
Proof.
  unfold crlf.
  change (String CR (String LF EmptyString) ++ rest)%string
    with (String CR (String LF rest)).
  cbn [feed].
  change (process_char CR (Reader START_RECORD EmptyString [] rs))
    with (Some (Reader EAT_CRNL EmptyString [] rs)).
  cbv iota. change (line_ends CR (String LF rest)) with false. cbv iota.
  change (process_char LF (Reader EAT_CRNL EmptyString [] rs))
    with (Some (Reader EAT_CRNL EmptyString [] rs)).
  cbv iota. now rewrite line_ends_LF.
Qed.

End Reader.

Section Records.

Import Csv.

Lemma append_not_empty (a b : string) :
  b <> EmptyString -> (a ++ b)%string <> EmptyString.
Proof. destruct a; [trivial | discriminate]. Qed.

Lemma crlf_not_empty rest : (crlf ++ rest)%string <> EmptyString.
Proof. discriminate. Qed.

Lemma after_field_read s st0 :
  st0 = START_FIELD \/ s <> EmptyString -> field_read (after_field s st0).
Proof.
  unfold after_field, field_read. intros H.
  destruct (needs_quotes s); [auto|].
  destruct s; [|auto]. destruct H as [-> | H]; [auto | contradiction].
Qed.

(** The fields of a record, comma between them, then CR LF. *)
Lemma feed_fields (todo : list string) : forall st0 fs rs rest,
  todo <> [] ->
  st0 = START_FIELD \/ (st0 = START_RECORD /\ todo <> [EmptyString]) ->
  feed (join "," (map field todo) ++ crlf ++ rest) (Reader st0 EmptyString fs rs)
  = feed rest (Reader START_RECORD EmptyString [] (rs ++ [fs ++ todo])).
Proof.
  induction todo as [|s todo IH]; intros st0 fs rs rest Hne Hst; [contradiction|].
  destruct todo as [|s2 todo].
  - cbn [map join].
    rewrite feed_field; [|destruct Hst as [-> | [-> _]]; auto | apply crlf_not_empty].
    apply feed_crlf. apply after_field_read.
    destruct Hst as [-> | [-> H]]; [now left | right]. congruence.
  - change (join "," (map field (s :: s2 :: todo)))
      with (field s ++ String "," (join "," (map field (s2 :: todo))))%string.
    rewrite append_assoc.
    change ((String "," (join "," (map field (s2 :: todo)))) ++ crlf ++ rest)%string
      with (String "," (join "," (map field (s2 :: todo)) ++ crlf ++ rest)).
    rewrite feed_field; [|destruct Hst as [-> | [-> _]]; auto | discriminate].
    rewrite feed_comma.
    + rewrite IH; [|discriminate | now left].
      now rewrite <- app_assoc.
    + unfold after_field, field_read. destruct (needs_quotes s); [auto|].
      destruct s; [|auto]. destruct Hst as [-> | [-> _]]; auto.
    + apply append_not_empty, crlf_not_empty.
Qed.

Lemma feed_writerow row rs rest :
  feed (writerow row ++ rest) (Reader START_RECORD EmptyString [] rs)
  = feed rest (Reader START_RECORD EmptyString [] (rs ++ [map cell_str row])).
Proof.
  unfold writerow.
  destruct (map cell_str row) as [|s todo] eqn:E.
  - cbn [join map append]. apply feed_crlf_empty.
  - assert (G : forall text,
               (text = join "," (map field (s :: todo)) ++ crlf)%string ->
               s :: todo <> [EmptyString] ->
               feed (text ++ rest) (Reader START_RECORD EmptyString [] rs)
               = feed rest (Reader START_RECORD EmptyString [] (rs ++ [s :: todo]))).
    { intros text -> H. rewrite append_assoc.
      rewrite feed_fields; [reflexivity | discriminate | right; split; [reflexivity | exact H]]. }
    destruct s as [|c s]; [destruct todo as [|s2 todo]|].
    + rewrite append_assoc.
      rewrite feed_quoted; [|now left | apply crlf_not_empty].
      apply feed_crlf. unfold field_read. auto.
    + apply G; [reflexivity | discriminate].
    + apply G; [reflexivity | discriminate].
Qed.

Lemma writerows_cons file row rows :
  writerows file (row :: rows) = writerows (file ++ writerow row) rows.
Proof. reflexivity. Qed.

Lemma writerows_from file rows :
  writerows file rows = (file ++ writerows EmptyString rows)%string.
Proof.
  revert file. induction rows as [|row rows IH]; intros file.
  - simpl. now rewrite append_empty.
  - rewrite !writerows_cons, IH, (IH (EmptyString ++ writerow row)%string).
    simpl. now rewrite append_assoc.
Qed.

Lemma feed_writerows rows : forall rs,
  feed (writerows EmptyString rows) (Reader START_RECORD EmptyString [] rs)
  = Some (Reader START_RECORD EmptyString [] (rs ++ map (map cell_str) rows)).
Proof.
  induction rows as [|row rows IH]; intros rs.
  - simpl. now rewrite app_nil_r.
  - rewrite writerows_cons, writerows_from. simpl append.
    rewrite feed_writerow, IH. simpl. now rewrite <- app_assoc.
Qed.

(** Reading back what [writerow] wrote gives the rows, cell by cell. *)
Lemma read_writerows rows :
  read (writerows EmptyString rows) = Some (map (map cell_str) rows).
Proof. unfold read. now rewrite feed_writerows. Qed.

End Records.

(** *** [int] reads what [str] wrote *)

Lemma numeral_chars d : no_blank_or_underscore (NilEmpty.string_of_uint d) = true.
Proof. induction d; simpl; try reflexivity; exact IHd. Qed.

Lemma not_blank c : is_space c = false -> is_blank c = false.
Proof.
  unfold is_space, is_blank.
  destruct (in_range 9 13 c); [discriminate|].
  now destruct (in_range 28 31 c).
Qed.

Lemma skip_left_no_blank s : no_blank_or_underscore s = true -> skip_left s = s.
Proof.
  destruct s as [|c s]; [reflexivity|]. simpl.
  rewrite !andb_true_iff. intros [[H _] _].
  apply negb_true_iff, not_blank in H. now rewrite H.
Qed.

Lemma skip_right_no_blank s : no_blank_or_underscore s = true -> skip_right s = s.
Proof.
  induction s as [|c s IH]; [reflexivity|]. simpl.
  rewrite !andb_true_iff. intros [[H _] Hs]. rewrite (IH Hs).
  destruct s; [|reflexivity].
  apply negb_true_iff, not_blank in H. now rewrite H.
Qed.

Lemma skip_no_blank s :
  no_blank_or_underscore s = true -> skip_left (skip_right s) = s.
Proof.
  intros H. rewrite (skip_right_no_blank s H). now apply skip_left_no_blank.
Qed.

Lemma drop_underscores_none s :
  no_blank_or_underscore s = true -> drop_underscores s = s.
Proof.
  induction s as [|c s IH]; [reflexivity|]. simpl.
  rewrite !andb_true_iff. intros [[_ H] Hs].
  destruct (Ascii.eqb c "_"); [discriminate|]. now rewrite IH.
Qed.

Lemma grouped_none s : forall prev,
  no_blank_or_underscore s = true ->
  grouped prev s = match s with EmptyString => prev | _ => true end.
Proof.
  induction s as [|c s IH]; intros prev; [reflexivity|]. simpl.
  rewrite !andb_true_iff. intros [[_ H] Hs].
  destruct (Ascii.eqb c "_"); [discriminate|].
  rewrite (IH true Hs). now destruct s.
Qed.

Lemma int_unsigned_numeral d :
  d <> Nil -> int_unsigned (NilEmpty.string_of_uint d) = Some (Z.of_uint d).
Proof.
  intros Hd. unfold int_unsigned.
  rewrite grouped_none, drop_underscores_none, NilEmpty.usu
    by apply numeral_chars.
  destruct d; [contradiction | reflexivity ..].
Qed.

Lemma of_to_uint p : Z.of_uint (Pos.to_uint p) = Z.pos p.
Proof.
  exact (DecimalZ.of_to (Z.pos p)).
Qed.

Lemma int_str n : Py.int (str n) = Some n.
Proof.
  destruct n as [|p|p]; [reflexivity | |]; unfold str, Py.int; simpl Z.to_int;
    cbn [NilZero.string_of_int]; unfold NilZero.string_of_uint;
    pose proof (to_uint_not_nil p) as Hp;
    pose proof (numeral_chars (Pos.to_uint p)) as Hc;
    pose proof (int_unsigned_numeral (Pos.to_uint p) Hp) as Hi;
    rewrite of_to_uint in Hi.
  - destruct (Pos.to_uint p) eqn:E; [contradiction | ..];
      rewrite skip_no_blank by exact Hc; simpl in Hi |- *; exact Hi.
  - assert (Hs : skip_left
                   (skip_right (String "-" (NilEmpty.string_of_uint (Pos.to_uint p))))
                 = String "-" (NilEmpty.string_of_uint (Pos.to_uint p))).
    { apply skip_no_blank. simpl. exact Hc. }
    destruct (Pos.to_uint p) eqn:E; [contradiction | ..];
      rewrite Hs; rewrite Hi; reflexivity.
Qed.

(* ================================================================= *)
(** ** The export *)

Lemma headers_text questions :
  map Csv.cell_str (headers questions) = header_text questions.
Proof.
  unfold headers, header_text. rewrite !map_app, map_map. reflexivity.
Qed.

Lemma player_row_text entry : map Csv.cell_str (player_row entry) = row_text entry.
Proof.
  destruct entry as [person scores]. unfold player_row, row_text, total.
  rewrite !map_app, map_map. reflexivity.
Qed.

Lemma write_score_to_csv_run person (first : dict Z) rest ins :
  write_score_to_csv ((person, first) :: rest) ins
  = Run (Ok tt) ins
      [Wrote "quiz_score.csv"
         (writerows EmptyString
            (headers (keys first) :: map player_row ((person, first) :: rest)));
       Printed "You can check the results in quiz_score.csv"].
Proof. reflexivity. Qed.

Lemma read_score_file (first : dict Z) (score : score_table) :
  Csv.read (writerows EmptyString (headers (keys first) :: map player_row score))
  = Some (header_text (keys first) :: map row_text score).
Proof.
  rewrite read_writerows. cbn [map]. rewrite headers_text, map_map.
  do 2 f_equal. apply map_ext. apply player_row_text.
Qed.

(** C7: for a table whose players have the question keys of the first
    one, the file holds one row more than there are players; the header
    is Name, a Question column for each key of the first player in its
    order, and Total, which makes two columns more than questions; the
    row of a player is the name, the points in stored order, and their
    sum; and every row is as long as the header. *)
Theorem write_score_to_csv_rows person (first : dict Z) rest ins :
  let score := (person, first) :: rest in
  regular score ->
  exists file,
    write_score_to_csv score ins
    = Run (Ok tt) ins
        [Wrote "quiz_score.csv" file;
         Printed "You can check the results in quiz_score.csv"]
    /\ file = writerows EmptyString (headers (keys first) :: map player_row score)
    /\ Csv.read file = Some (header_text (keys first) :: map row_text score)
    /\ List.length (header_text (keys first) :: map row_text score)
       = (List.length score + 1)%nat
    /\ List.length (header_text (keys first)) = (List.length (keys first) + 2)%nat
    /\ Forall (fun row => List.length row = List.length (header_text (keys first)))
         (map row_text score).
Proof.
  intros score Hreg. eexists. split; [apply write_score_to_csv_run|].
  split; [reflexivity|]. split; [apply read_score_file|].
  assert (Hh : List.length (header_text (keys first))
               = (List.length (keys first) + 2)%nat).
  { unfold header_text. rewrite !length_app, length_map. simpl. lia. }
  repeat split.
  - cbn [List.length]. rewrite length_map. lia.
  - exact Hh.
  - rewrite Hh. apply Forall_map. unfold regular in Hreg. subst score.
    eapply Forall_impl; [|exact Hreg]. intros [p scores] E. simpl in E.
    unfold row_text. cbn [fst snd].
    rewrite !length_app, length_map. unfold keys, values in *.
    rewrite <- E, !length_map. simpl. lia.
Qed.

Lemma all_some_map {A B} (f : A -> option B) (g : A -> B) (l : list A) :
  (forall a, In a l -> f a = Some (g a)) ->
  all_some (map f l) = Some (map g l).
Proof.
  induction l as [|a l IH]; intros H; [reflexivity|]. simpl.
  rewrite (H a) by now left. rewrite IH; [reflexivity|].
  intros; apply H; now right.
Qed.

Lemma last_snoc {A} (l : list A) : forall x y d, last (x :: l ++ [y]) d = y.
Proof.
  induction l as [|z l IH]; intros; [reflexivity|].
  change (last (x :: (z :: l) ++ [y]) d) with (last (z :: l ++ [y]) d).
  apply IH.
Qed.

Lemma row_total_text entry : row_total (row_text entry) = Some (fst entry, total entry).
Proof.
  unfold row_total.
  change (row_text entry)
    with (fst entry :: map str (values (snd entry)) ++ [str (total entry)]).
  cbv iota. now rewrite last_snoc, int_str.
Qed.

(** C8: the file that [write_score_to_csv] writes for a table with a
    player at least, read back by the csv reader, gives for each player,
    in the table's order, the name and the sum of the player's points. *)
Theorem csv_round_trip_totals (score : score_table) ins :
  score <> [] ->
  exists file,
    write_score_to_csv score ins
    = Run (Ok tt) ins
        [Wrote "quiz_score.csv" file;
         Printed "You can check the results in quiz_score.csv"]
    /\ parse_totals file = Some (map (fun entry => (fst entry, total entry)) score).
Proof.
  intros Hne. destruct score as [|[person first] rest]; [contradiction|].
  eexists. split; [apply write_score_to_csv_run|].
  unfold parse_totals. rewrite read_score_file.
  rewrite map_map. apply all_some_map. intros entry _. apply row_total_text.
Qed.

Lemma write_score_to_csv_rows_witness :
  exists file,
    write_score_to_csv Sample.scores []
    = Run (Ok tt) []
        [Wrote "quiz_score.csv" file;
         Printed "You can check the results in quiz_score.csv"]
    /\ file = writerows EmptyString
                (headers ["1"; "2"; "3"] :: map player_row Sample.scores)
    /\ Csv.read file
       = Some (header_text ["1"; "2"; "3"] :: map row_text Sample.scores)
    /\ List.length (header_text ["1"; "2"; "3"] :: map row_text Sample.scores)
       = (List.length Sample.scores + 1)%nat
    /\ List.length (header_text ["1"; "2"; "3"]) = (3 + 2)%nat
    /\ Forall (fun row => List.length row = List.length (header_text ["1"; "2"; "3"]))
         (map row_text Sample.scores).
Proof.
  apply (write_score_to_csv_rows "Sheldon" [("1", 0); ("2", 1); ("3", 1)]
           [("Leonard", [("1", 0); ("2", 0); ("3", 0)]);
            ("Penny", [("1", 1); ("2", 1); ("3", 1)])] []).
  unfold regular. repeat constructor.
Defined.

Lemma csv_round_trip_totals_witness :
  exists file,
    write_score_to_csv Sample.scores []
    = Run (Ok tt) []
        [Wrote "quiz_score.csv" file;
         Printed "You can check the results in quiz_score.csv"]
    /\ parse_totals file = Some [("Sheldon", 2); ("Leonard", 0); ("Penny", 3)].
Proof.
  apply (csv_round_trip_totals Sample.scores []). discriminate.
Defined.

(** The file of the sample table, and a name that needs quotes. *)
Example sample_file :
  parse_totals
    (writerows EmptyString
       (headers ["1"] :: map player_row [("Doe, Jane", [("1", 1)]); ("", [("1", 0)])]))
  = Some [("Doe, Jane", 1); ("", 0)].
Proof. reflexivity. Qed.

(** C9: on the empty table [write_score_to_csv] raises [StopIteration]
    with nothing written; on a table with a player it returns, having
    written the file and printed its message. *)
Theorem write_score_to_csv_needs_a_player :
  (forall ins, write_score_to_csv [] ins = Run (Raise StopIteration) ins [])
  /\ (forall entry rest ins, exists file,
        write_score_to_csv (entry :: rest) ins
        = Run (Ok tt) ins
            [Wrote "quiz_score.csv" file;
             Printed "You can check the results in quiz_score.csv"]).
Proof.
  split; [reflexivity|].
  intros [person first] rest ins. eexists. reflexivity.
Qed.

(* ================================================================= *)
(** ** Further properties: the prompts of the entry flow *)

(** Lines 39-44: lines that are no number are refused one by one, each
    with the message, and the first number typed is the player count;
    when no number comes the loop ends with [EOFError]. *)
Theorem ask_no_players_first_number bad :
  Forall (fun line => int line = None) bad ->
  (forall line n rest,
      int line = Some n ->
      ask_no_players (bad ++ line :: rest)
      = Run (Ok n) rest (refused_counts bad ++ [Prompted "How many players? "]))
  /\ ask_no_players bad
     = Run (Raise EOFError) [] (refused_counts bad ++ [Prompted "How many players? "]).
Proof.
  induction 1 as [|l bad Hl _ [IHok IHeof]]; split.
  - intros line n rest Hn. simpl. now rewrite Hn.
  - reflexivity.
  - intros line n rest Hn. rewrite <- app_comm_cons. cbn [ask_no_players]. rewrite Hl.
    rewrite (IHok line n rest Hn). reflexivity.
  - cbn [ask_no_players]. rewrite Hl, IHeof. reflexivity.
Qed.

Lemma ask_name_adds_new number player_list : forall ins player_list',
  result (ask_name number player_list ins) = Ok player_list' ->
  exists name, player_list' = player_list ++ [name] /\ ~ In name player_list.
Proof.
  induction ins as [|name rest IH]; intros pl'; cbn [ask_name]; [discriminate|].
  destruct (existsb (String.eqb name) player_list) eqn:E; cbn [negb].
  - apply IH.
  - intros [= <-]. exists name. split; [reflexivity|].
    intros H. apply existsb_eqb_In in H. congruence.
Qed.

Lemma ask_name_raises_eof number player_list : forall ins e,
  result (ask_name number player_list ins) = Raise e -> e = EOFError.
Proof.
  induction ins as [|name rest IH]; intros e; cbn [ask_name].
  - now intros [= <-].
  - destruct (existsb (String.eqb name) player_list); cbn [negb];
      [apply IH | discriminate].
Qed.

(** Lines 45-55: whatever is typed, the names collected are pairwise
    different; a run of the loop that ends well has added one name per
    turn, after those it started from; and the loop fails only when the
    console has no line left. *)
Theorem ask_names_unique turns : forall number player_list ins,
  NoDup player_list ->
  (forall player_list',
      result (ask_names turns number player_list ins) = Ok player_list' ->
      NoDup player_list'
      /\ List.length player_list' = (List.length player_list + turns)%nat
      /\ exists added, player_list' = player_list ++ added)
  /\ (forall e,
        result (ask_names turns number player_list ins) = Raise e -> e = EOFError).
Proof.
  induction turns as [|turns IH]; intros number pl ins Hnd; cbn [ask_names].
  - split.
    + intros pl' [= <-]. repeat split; [exact Hnd | lia |].
      exists []. now rewrite app_nil_r.
    + discriminate.
  - unfold bind.
    destruct (result (ask_name (number + 1) pl ins)) as [pl1|e1] eqn:E1.
    + destruct (ask_name_adds_new _ _ _ _ E1) as (name & -> & Hnew).
      assert (Hnd1 : NoDup (pl ++ [name])).
      { apply NoDup_app; [exact Hnd | repeat constructor; intros [] |].
        intros x Hx [<- | []]. contradiction. }
      destruct (IH (number + 1) (pl ++ [name])
                  (stdin (ask_name (number + 1) pl ins)) Hnd1) as [IHok IHe].
      split.
      * intros pl' H. cbn [emit result] in H.
        destruct (IHok pl' H) as (Hnd' & Hlen & added & ->).
        repeat split; [exact Hnd' | |].
        -- rewrite Hlen, length_app. simpl. lia.
        -- exists (name :: added). now rewrite <- app_assoc.
      * intros e H. cbn [emit result] in H. now apply IHe.
    + split; [discriminate|]. cbn [result]. intros e [= <-].
      now apply (ask_name_raises_eof _ _ _ _ E1).
Qed.

Lemma ask_names_unique_witness :
  NoDup ["A"; "B"] /\ List.length ["A"; "B"] = (0 + 2)%nat
  /\ exists added, ["A"; "B"] = [] ++ added.
Proof.
  apply (proj1 (ask_names_unique 2 0 [] ["A"; "A"; "B"; "C"] (NoDup_nil _))).
  reflexivity.
Defined.

Lemma ask_no_questions_bound ins : forall n,
  result (ask_no_questions (Some n) ins) <> Raise NameError.
Proof.
  induction ins as [|line rest IH]; intros n; cbn [ask_no_questions];
    [discriminate|].
  destruct (int line) as [k|].
  - destruct (k <=? 50); [discriminate | apply IH].
  - destruct (n <=? 50); [discriminate | apply IH].
Qed.

(** Lines 58-73: the loop ends with [NameError] exactly when the first
    line typed is no number.  Once a number has been typed it cannot:
    a line that is no number leaves the count refused before in
    [no_questions], so both messages are printed and the loop asks again. *)
Theorem ask_no_questions_name_error :
  (forall ins,
      result (ask_no_questions None ins) = Raise NameError
      <-> exists line rest, ins = line :: rest /\ int line = None)
  /\ (forall n ins, result (ask_no_questions (Some n) ins) <> Raise NameError)
  /\ (forall n line rest,
        50 < n -> int line = None ->
        ask_no_questions (Some n) (line :: rest)
        = emit [Prompted "How many questions would you like to have? ";
                Printed "Please, give a number";
                Printed "Sorry, the maximum number of questions is 50."]
            (ask_no_questions (Some n) rest)).
Proof.
  split; [|split].
  - intros [|line rest]; cbn [ask_no_questions].
    + split; [discriminate | intros (? & ? & [=] & _)].
    + destruct (int line) as [k|] eqn:E.
      * split.
        -- destruct (k <=? 50); [discriminate|]. intros H.
           now apply ask_no_questions_bound in H.
        -- intros (l & r & [= <- <-] & H). congruence.
      * split; [eauto | reflexivity].
  - intros n ins. apply ask_no_questions_bound.
  - intros n line rest Hn Hl. cbn [ask_no_questions]. rewrite Hl.
    destruct (n <=? 50) eqn:E; [apply Z.leb_le in E; lia | reflexivity].
Qed.

(* ================================================================= *)
(** ** Further properties: the winner on any table *)

Lemma highest_total_snoc seen entry :
  highest_total (seen ++ [entry]) = Z.max (highest_total seen) (total entry).
Proof. unfold highest_total. now rewrite map_app, fold_left_app. Qed.

(** The loop of [calculate_winner] after the entries [seen], whatever
    their points. *)
Lemma count_any (seen : score_table) :
  let t := fold_left count seen (Tally (-1) [] []) in
  highest_score t = highest_total seen
  /\ -1 <= highest_score t
  /\ Forall (fun x => x <= highest_score t) (map total seen)
  /\ persons_with_highest_score t = with_total (highest_score t) seen.
Proof.
  induction seen as [|[person scores] seen IH] using rev_ind; cbv zeta.
  - split; [reflexivity|]. split; [simpl; lia|].
    split; [constructor | reflexivity].
  - cbv zeta in IH. rewrite fold_left_app. cbn [fold_left].
    set (t := fold_left count seen (Tally (-1) [] [])) in *.
    destruct IH as (Hh & Hlow & Hmax & Hl).
    rewrite highest_total_snoc, <- Hh, !map_app, with_total_app.
    cbn [map]. unfold count.
    change (total (person, scores)) with (sum (values scores)).
    assert (Hone : forall h, with_total h [(person, scores)]
                             = if sum (values scores) =? h then [person] else []).
    { intros h. unfold with_total, total. simpl. now destruct (_ =? h). }
    rewrite Hone.
    destruct (sum (values scores) >? highest_score t) eqn:E;
      rewrite Z.gtb_ltb in E.
    + apply Z.ltb_lt in E. cbn [highest_score persons_with_highest_score].
      rewrite Z.eqb_refl. repeat split; try lia.
      * apply Forall_app. split.
        -- eapply Forall_impl; [|exact Hmax]. simpl. intros; lia.
        -- constructor; [lia | constructor].
      * rewrite with_total_above; [reflexivity|].
        eapply Forall_impl; [|exact Hmax]. simpl. intros; lia.
    + apply Z.ltb_ge in E.
      destruct (sum (values scores) =? highest_score t) eqn:E2;
        cbn [highest_score persons_with_highest_score]; rewrite E2.
      * apply Z.eqb_eq in E2. repeat split; try lia.
        -- apply Forall_app. split; [exact Hmax|].
           constructor; [lia | constructor].
        -- now rewrite Hl.
      * apply Z.eqb_neq in E2. repeat split; try lia.
        -- apply Forall_app. split; [exact Hmax|].
           constructor; [lia | constructor].
        -- now rewrite Hl, app_nil_r.
Qed.

Lemma calculate_winner_run (score : score_table) ins :
  calculate_winner score ins = Run (Ok tt) ins (announcement score).
Proof.
  destruct (count_any score) as (Hh & Hlow & Hmax & Hl).
  unfold calculate_winner, announcement. rewrite Hh.
  destruct (_ =? 0); [reflexivity|].
  unfold bind, print. simpl. rewrite print_all_run. simpl.
  now rewrite Hl, Hh.
Qed.

Lemma max_from_above (l : list Z) : forall a,
  Forall (fun x => x < a) l -> fold_left Z.max l a = a.
Proof.
  induction l as [|x l IH]; intros a Hx; [reflexivity|].
  inversion Hx; subst. simpl. rewrite Z.max_l by lia. now apply IH.
Qed.

(** Lines 193-214, for every table and whatever its points: the score
    reported is the highest total, or -1 when no total reaches -1; the
    names printed are the players with that total, in the table's order;
    and the no-points message replaces all of it when that score is 0.
    When every total is below -1 the heading says -1 and no name follows. *)
Theorem calculate_winner_any_points (score : score_table) ins :
  calculate_winner score ins
  = Run (Ok tt) ins
      (if highest_total score =? 0 then
         [Printed "Sorry, no points. Better luck next time!"]
       else
         [Printed ("Player(s) with the highest score ("
                   ++ str (highest_total score) ++ "):")]
         ++ map Printed (with_total (highest_total score) score)
         ++ [Printed "Congratulations!"])
  /\ (Forall (fun x => x <= highest_total score) (map total score))
  /\ (Forall (fun x => x < -1) (map total score) ->
      highest_total score = -1 /\ with_total (highest_total score) score = []).
Proof.
  split; [apply calculate_winner_run|]. split.
  - destruct (count_any score) as (Hh & _ & Hmax & _). now rewrite <- Hh.
  - intros Hall.
    assert (E : highest_total score = -1) by now apply max_from_above.
    rewrite E. split; [reflexivity | now apply with_total_above].
Qed.

Lemma calculate_winner_any_points_witness :
  highest_total [("A", [("1", -2)]); ("B", [("1", -5)])] = -1
  /\ with_total (highest_total [("A", [("1", -2)]); ("B", [("1", -5)])])
       [("A", [("1", -2)]); ("B", [("1", -5)])] = [].
Proof.
  apply (proj2 (proj2 (calculate_winner_any_points
                         [("A", [("1", -2)]); ("B", [("1", -5)])] []))).
  repeat constructor.
Defined.

(* ================================================================= *)
(** ** Further properties: the export of any table *)

(** Lines 263-279 check nothing about the table: for every table with
    a player at least the file is written, and read back it is the
    header made from the first player's keys and a row per player of
    the name, that player's points and their sum.  A player's row is as
    long as the header exactly when the player has as many points as
    the first player has keys. *)
Theorem write_score_to_csv_any_table person (first : dict Z) rest ins :
  let score := (person, first) :: rest in
  exists file,
    write_score_to_csv score ins
    = Run (Ok tt) ins
        [Wrote "quiz_score.csv" file;
         Printed "You can check the results in quiz_score.csv"]
    /\ Csv.read file = Some (header_text (keys first) :: map row_text score)
    /\ forall entry,
         In entry score ->
         (List.length (row_text entry) = List.length (header_text (keys first))
          <-> List.length (values (snd entry)) = List.length (keys first)).
Proof.
  intros score. eexists. split; [apply write_score_to_csv_run|].
  split; [apply read_score_file|].
  intros entry _. unfold row_text, header_text.
  rewrite !length_app, !length_map. simpl. lia.
Qed.

(* ================================================================= *)
(** ** Further properties: the console of the quiz *)

Section QuizConsole.

Variable charref_sub : string -> string.
Variable shuffle : list string -> list string.

Lemma ask_players_console players prompt correct q : forall score ins,
  incl players (keys score) ->
  (List.length players <= List.length ins)%nat ->
  ask_players players prompt correct q score ins
  = Run (Ok (round correct q score players ins)) (skipn (List.length players) ins)
      (map (fun player => Prompted (player ++ ": " ++ prompt ++ nl)%string) players).
Proof.
  induction players as [|p players IH]; intros score ins Hk Hlen.
  - reflexivity.
  - destruct ins as [|a ins]; [simpl in Hlen; lia|].
    cbn [ask_players]. unfold bind at 1. cbn [input result stdin trace].
    assert (Hp : In p (keys score)) by (apply Hk; now left).
    apply getitem_in_keys in Hp as [points Hp]. rewrite Hp.
    assert (R : record correct q score (p, a)
                = setitem p (setitem (str q) (player_points a correct) points) score).
    { unfold record. now rewrite Hp. }
    rewrite <- R, IH.
    + reflexivity.
    + rewrite keys_record. intros x Hx. apply Hk. now right.
    + simpl in Hlen. lia.
Qed.

Lemma ask_questions_console items players : forall q score ins,
  incl players (keys score) ->
  (List.length items * List.length players <= List.length ins)%nat ->
  ask_questions charref_sub shuffle items players q score ins
  = Run (Ok (play charref_sub items players q score ins))
      (skipn (List.length items * List.length players) ins)
      (flat_map (question_events charref_sub shuffle players) items).
Proof.
  induction items as [|item items IH]; intros q score ins Hk Hlen.
  - reflexivity.
  - cbn [ask_questions play flat_map].
    unfold bind at 1. rewrite ask_players_console; [|exact Hk | simpl in Hlen; lia].
    cbn [result stdin trace]. unfold bind at 1. cbn [print result stdin trace].
    rewrite IH; [|now rewrite keys_round | rewrite length_skipn; simpl in Hlen; lia].
    unfold emit. cbn [result stdin trace].
    rewrite skipn_skipn. cbn [List.length Nat.mul].
    rewrite (Nat.add_comm (List.length items * List.length players)).
    unfold question_events, question_prompt, answer_line.
    rewrite <- app_assoc. reflexivity.
Qed.


End QuizConsole.

(* ================================================================= *)
(** ** Further properties: a name that is in the list twice *)







(* ================================================================= *)
(** ** Further properties: the totals of the quiz *)

Lemma empty_scores_unique players :
  NoDup players -> empty_scores players = map (fun p => (p, [])) players.
Proof.
  unfold empty_scores.
  assert (G : forall (score : score_table),
             NoDup players ->
             (forall p, In p players -> ~ In p (keys score)) ->
             fold_left (fun (score : score_table) player => setitem player [] score)
               players score
             = score ++ map (fun p => (p, [])) players).
  { induction players as [|p players IH]; intros score Hnd Hfresh; simpl.
    - now rewrite app_nil_r.
    - inversion Hnd as [|? ? Hp Hnd']; subst.
      rewrite IH; [|exact Hnd'|].
      + rewrite setitem_new by (apply Hfresh; now left).
        now rewrite <- app_assoc.
      + intros x Hx H. apply in_keys_setitem in H as [-> | H]; [contradiction|].
        apply (Hfresh x); [now right | exact H]. }
  intros Hnd. now rewrite G.
Qed.





Section QuizTotals.

Variable charref_sub : string -> string.
Variable shuffle : list string -> list string.



End QuizTotals.

(* ================================================================= *)
(** ** Further properties: the script from top to bottom *)

Lemma get_questions_run get no_questions ins :
  get_questions get no_questions ins
  = Run (Ok (get (api_url no_questions))) ins
      (Requested (api_url no_questions) :: status_line (get (api_url no_questions))).
Proof.
  unfold get_questions, status_line, bind, request. cbn [result stdin trace].
  destruct (status_code (get (api_url no_questions)) =? 200); reflexivity.
Qed.

Lemma ask_no_questions_accepts line n rest :
  int line = Some n -> n <= 50 ->
  ask_no_questions None (line :: rest)
  = Run (Ok n) rest
      [Prompted "How many questions would you like to have? "; Printed (thanks n)].
Proof.
  intros Hl Hn. cbn [ask_no_questions]. rewrite Hl.
  destruct (n <=? 50) eqn:E; [reflexivity | apply Z.leb_gt in E; lia].
Qed.


Lemma play_nobody charref_sub items : forall q ins,
  play charref_sub items [] q [] ins = [].
Proof. induction items as [|item items IH]; intros; cbn [play]; [reflexivity | apply IH]. Qed.

Lemma write_score_to_csv_ok (score : score_table) ins :
  score <> [] ->
  write_score_to_csv score ins
  = Run (Ok tt) ins
      [Wrote "quiz_score.csv" (score_file score);
       Printed "You can check the results in quiz_score.csv"].
Proof. destruct score as [|[person first] rest]; [contradiction | reflexivity]. Qed.


Section Script.

Variable get : string -> response.
Variable charref_sub : string -> string.
Variable shuffle : list string -> list string.

(** Lines 39-86 with a player count of zero or less: no name is asked,
    the questions are fetched, every correct answer is printed with
    nobody asked, the winner heading reports -1, and the export fails:
    the script ends with [StopIteration] and writes no file. *)
Theorem main_without_players line_players no_players line_questions no_questions rest :
  int line_players = Some no_players -> no_players <= 0 ->
  int line_questions = Some no_questions -> no_questions <= 50 ->
  main get charref_sub shuffle (line_players :: line_questions :: rest)
  = Run (Raise StopIteration) rest
      ([Printed "Welcome to a trivia game!";
        Prompted "How many players? ";
        Prompted "How many questions would you like to have? ";
        Printed (thanks no_questions);
        Requested (api_url no_questions)]
       ++ status_line (get (api_url no_questions))
       ++ flat_map (question_events charref_sub shuffle [])
            (results (get (api_url no_questions)))
       ++ [Printed "Player(s) with the highest score (-1):";
           Printed "Congratulations!"]).
Proof.
  intros Hp Hp0 Hq Hq50. unfold main.
  rewrite (bind_ok _ _ _ tt (line_players :: line_questions :: rest)
             [Printed "Welcome to a trivia game!"]) by reflexivity.
  rewrite (bind_ok ask_no_players _ _ no_players (line_questions :: rest)
             [Prompted "How many players? "])
    by (cbn [ask_no_players]; now rewrite Hp).
  replace (Z.to_nat no_players) with O by (destruct no_players; lia).
  rewrite (bind_ok (ask_names 0 0 []) _ _ [] (line_questions :: rest) [])
    by reflexivity.
  rewrite (bind_ok _ _ _ _ _ _ (ask_no_questions_accepts _ _ rest Hq Hq50)).
  rewrite (bind_ok _ _ _ _ _ _ (get_questions_run get no_questions rest)).
  set (response := get (api_url no_questions)).
  assert (Hquiz : quiz charref_sub shuffle response [] rest
                  = Run (Ok []) rest
                      (flat_map (question_events charref_sub shuffle [])
                         (results response))).
  { unfold quiz. rewrite ask_questions_console.
    - cbn [empty_scores fold_left]. rewrite play_nobody, Nat.mul_0_r. reflexivity.
    - intros x [].
    - simpl. lia. }
  rewrite (bind_ok _ _ _ _ _ _ Hquiz).
  rewrite (bind_ok _ _ _ _ _ _ (calculate_winner_run [] rest)).
  unfold emit. cbn [write_score_to_csv raise result stdin trace].
  rewrite app_nil_r. reflexivity.
Qed.


End Script.

(* ================================================================= *)
(** ** Further properties: a payload without questions *)

Lemma highest_total_zeros (score : score_table) :
  score <> [] ->
  Forall (fun x => x = 0) (map total score) ->
  highest_total score = 0.
Proof.
  unfold highest_total. destruct score as [|entry score]; [contradiction|].
  intros _ H. inversion H as [|? ? H0 Hrest]; subst. cbn [map fold_left].
  rewrite H0. cbn [Z.max Z.compare]. clear H H0.
  induction Hrest as [|x l Hx _ IH]; [reflexivity|].
  cbn [fold_left]. now rewrite Hx.
Qed.

(** Lines 109-116 with lines 193-214 and 263-279: when the payload has
    no question, [quiz] asks nothing and gives every player an empty
    entry; on that table [calculate_winner] prints the no-points
    message, and [write_score_to_csv] writes the header Name, Total and
    a row with the total 0 for every player. *)
Theorem quiz_without_questions charref_sub shuffle status player_list ins :
  NoDup player_list ->
  player_list <> [] ->
  let score := map (fun player => (player, [])) player_list in
  quiz charref_sub shuffle (Response status []) player_list ins
  = Run (Ok score) ins []
  /\ calculate_winner score ins
     = Run (Ok tt) ins [Printed "Sorry, no points. Better luck next time!"]
  /\ write_score_to_csv score ins
     = Run (Ok tt) ins
         [Wrote "quiz_score.csv" (score_file score);
          Printed "You can check the results in quiz_score.csv"]
  /\ Csv.read (score_file score)
     = Some (["Name"; "Total"] :: map (fun player => [player; "0"]) player_list).
Proof.
  intros Hnd Hne score.
  assert (Hscore : score <> []).
  { subst score. destruct player_list; [contradiction | discriminate]. }
  repeat split.
  - unfold quiz. cbn [results ask_questions ret]. now rewrite empty_scores_unique.
  - rewrite calculate_winner_run. unfold announcement.
    rewrite highest_total_zeros; [reflexivity | exact Hscore |].
    subst score. rewrite map_map. apply Forall_map, Forall_forall. reflexivity.
  - now apply write_score_to_csv_ok.
  - subst score. destruct player_list as [|p players]; [contradiction|].
    cbn [map]. set (others := map (fun player => (player, [])) players).
    unfold score_file. rewrite read_score_file. subst others.
    cbn [map]. rewrite map_map. reflexivity.
Qed.

(* ================================================================= *)
(** ** Further properties: one request, and a file only at the end *)

Lemma bind_trace_result {A B} (m : M A) (f : A -> M B) ins ev :
  In ev (trace (bind m f ins)) ->
  In ev (trace (m ins))
  \/ exists a, result (m ins) = Ok a
               /\ In ev (trace (f a (stdin (m ins))))
               /\ result (bind m f ins) = result (f a (stdin (m ins))).
Proof.
  unfold bind. destruct (result (m ins)) as [a|e] eqn:E; simpl.
  - rewrite in_app_iff. intros [H|H]; [now left | right; eauto].
  - now left.
Qed.

Lemma trace_bind {A B} (m : M A) (f : A -> M B) ins :
  trace (bind m f ins)
  = trace (m ins)
    ++ match result (m ins) with
       | Ok a => trace (f a (stdin (m ins)))
       | Raise _ => []
       end.
Proof.
  unfold bind. destruct (result (m ins)); simpl; [reflexivity | now rewrite app_nil_r].
Qed.

Lemma sent_app tr1 tr2 : sent (tr1 ++ tr2) = sent tr1 ++ sent tr2.
Proof. unfold sent. apply flat_map_app. Qed.

Lemma sent_quiet tr : no_request tr -> sent tr = [].
Proof.
  unfold sent. induction tr as [|ev tr IH]; intros H; [reflexivity|].
  cbn [flat_map]. rewrite IH.
  - destruct ev; try reflexivity. exfalso. apply (H url). now left.
  - intros url Hin. apply (H url). now right.
Qed.

Lemma console_no_file tr path content :
  console_only tr -> ~ In (Wrote path content) tr.
Proof.
  unfold console_only. rewrite Forall_forall. intros H Hin.
  now apply H in Hin.
Qed.

Lemma console_only_bind {A B} (m : M A) (f : A -> M B) ins :
  console_only (trace (m ins)) ->
  (forall a ins', console_only (trace (f a ins'))) ->
  console_only (trace (bind m f ins)).
Proof.
  intros Hm Hf. rewrite trace_bind. apply Forall_app. split; [exact Hm|].
  destruct (result (m ins)); [apply Hf | constructor].
Qed.

Lemma console_only_emit {A} evs (r : run A) :
  console_only evs -> console_only (trace r) -> console_only (trace (emit evs r)).
Proof. intros H1 H2. simpl. apply Forall_app. now split. Qed.

(** A trace written out that holds prompts and printed lines only. *)
Ltac console := unfold console_only; simpl; repeat constructor.

Lemma ask_no_players_console ins : console_only (trace (ask_no_players ins)).
Proof.
  induction ins as [|line rest IH]; cbn [ask_no_players]; [console|].
  destruct (int line); [console|].
  apply console_only_emit; [console | exact IH].
Qed.

Lemma ask_name_console number player_list ins :
  console_only (trace (ask_name number player_list ins)).
Proof.
  induction ins as [|name rest IH]; cbn [ask_name]; [console|].
  destruct (negb _); [console|].
  apply console_only_emit; [console | exact IH].
Qed.

Lemma ask_names_console turns : forall number player_list ins,
  console_only (trace (ask_names turns number player_list ins)).
Proof.
  induction turns as [|turns IH]; intros; cbn [ask_names]; [console|].
  apply console_only_bind; [apply ask_name_console | intros; apply IH].
Qed.

Lemma ask_no_questions_console ins : forall v,
  console_only (trace (ask_no_questions v ins)).
Proof.
  induction ins as [|line rest IH]; intros v; cbn [ask_no_questions]; [console|].
  destruct (int line) as [n|].
  - destruct (n <=? 50); [console|].
    apply console_only_emit; [console | apply IH].
  - destruct v as [n|]; [|console].
    destruct (n <=? 50); [console|].
    apply console_only_emit; [console | apply IH].
Qed.

Lemma ask_players_console_only players : forall prompt correct q score ins,
  console_only (trace (ask_players players prompt correct q score ins)).
Proof.
  induction players as [|player rest IH]; intros; cbn [ask_players]; [console|].
  apply console_only_bind.
  - destruct ins; console.
  - intros answer ins'. destruct (getitem player score); [apply IH | console].
Qed.

Lemma quiz_console_only charref_sub shuffle response player_list ins :
  console_only (trace (quiz charref_sub shuffle response player_list ins)).
Proof.
  unfold quiz. generalize (empty_scores player_list), 1, ins.
  induction (results response) as [|item items IH]; intros score q ins';
    cbn [ask_questions]; [console|].
  apply console_only_bind; [apply ask_players_console_only|].
  intros score' ins''. apply console_only_bind; [console | intros; apply IH].
Qed.

Lemma calculate_winner_console score ins :
  console_only (trace (calculate_winner score ins)).
Proof.
  rewrite calculate_winner_run. cbn [trace]. unfold announcement.
  destruct (_ =? 0); [console|].
  unfold console_only. apply Forall_app. split; [repeat constructor|].
  apply Forall_app. split; [|repeat constructor].
  apply Forall_map, Forall_forall. intros; exact I.
Qed.

Section OneRequest.

Variable get : string -> response.
Variable charref_sub : string -> string.
Variable shuffle : list string -> list string.

(** What follows the request in the script. *)
Lemma after_request_quiet no_questions player_list ins :
  sent (trace ((response <- get_questions get no_questions ;;
                score <- quiz charref_sub shuffle response player_list ;;
                calculate_winner score ;;;
                write_score_to_csv score) ins))
  = [api_url no_questions].
Proof.
  rewrite trace_bind, get_questions_run. cbn [trace result stdin].
  unfold status_line. set (response := get (api_url no_questions)).
  assert (Hrest : sent (trace ((score <- quiz charref_sub shuffle response player_list ;;
                                calculate_winner score ;;;
                                write_score_to_csv score) ins)) = []).
  { apply sent_quiet. apply no_request_bind; [apply ask_questions_quiet|].
    intros score ins'. apply no_request_bind; [apply calculate_winner_quiet|].
    intros. apply write_score_to_csv_quiet. }
  cbn [app]. rewrite sent_app. cbn [sent flat_map app].
  fold (sent (if status_code response =? 200 then [] else
                [Printed ("Something went wrong! Didn't get the questions, got status code "
                          ++ str (status_code response))])).
  destruct (status_code response =? 200); cbn [sent flat_map app];
    fold sent; now rewrite Hrest.
Qed.

(** Lines 36-86, for every console: a run sends no request or one, for
    a count of 50 or less; and it writes a file only as its last act but
    one, so a run that has written the file has ended well, and a run
    that ends with an exception has written nothing. *)
Theorem main_one_request_one_file ins :
  (sent (trace (main get charref_sub shuffle ins)) = []
   \/ exists n, n <= 50
                /\ sent (trace (main get charref_sub shuffle ins)) = [api_url n])
  /\ (forall path content,
        In (Wrote path content) (trace (main get charref_sub shuffle ins)) ->
        path = "quiz_score.csv"
        /\ result (main get charref_sub shuffle ins) = Ok tt).
Proof.
  split.
  - unfold main. rewrite trace_bind, sent_app. cbn [print trace result stdin sent flat_map app].
    rewrite trace_bind, sent_app, (sent_quiet _ (ask_no_players_quiet ins)).
    cbn [app].
    destruct (result (ask_no_players ins)) as [no_players|]; [|now left].
    rewrite trace_bind, sent_app, (sent_quiet _ (ask_names_quiet _ _ _ _)).
    cbn [app].
    destruct (result (ask_names _ _ _ _)) as [player_list|]; [|now left].
    rewrite trace_bind, sent_app, (sent_quiet _ (ask_no_questions_quiet _ _)).
    cbn [app].
    destruct (result (ask_no_questions None _)) as [n|] eqn:En; [|now left].
    apply ask_no_questions_le_50 in En.
    right. exists n. split; [exact En|]. apply after_request_quiet.
  - intros path content H. unfold main in *.
    apply bind_trace_result in H as [H | (_ & _ & H & ->)];
      [destruct H as [[=]|[]]|].
    apply bind_trace_result in H as [H | (no_players & _ & H & ->)];
      [now apply (console_no_file _ _ _ (ask_no_players_console _)) in H|].
    apply bind_trace_result in H as [H | (player_list & _ & H & ->)];
      [now apply (console_no_file _ _ _ (ask_names_console _ _ _ _)) in H|].
    apply bind_trace_result in H as [H | (n & _ & H & ->)];
      [now apply (console_no_file _ _ _ (ask_no_questions_console _ _)) in H|].
    apply bind_trace_result in H as [H | (response & _ & H & ->)].
    { rewrite get_questions_run in H. cbn [trace] in H.
      destruct H as [[=]|H]. unfold status_line in H.
      destruct (_ =? 200); [destruct H | destruct H as [[=]|[]]]. }
    apply bind_trace_result in H as [H | (score & _ & H & ->)];
      [now apply (console_no_file _ _ _ (quiz_console_only _ _ _ _ _)) in H|].
    apply bind_trace_result in H as [H | (? & _ & H & ->)];
      [now apply (console_no_file _ _ _ (calculate_winner_console _ _)) in H|].
    destruct score as [|[person first] rest]; [destruct H|].
    rewrite write_score_to_csv_run in *. cbn [trace result] in *.
    destruct H as [[= <- _] | [[=] | []]]. now split.
Qed.

End OneRequest.

End Builtins.

(* ================================================================= *)
(** ** Runs of the program on the sample data

    The lines typed below are texts of ASCII characters, on which
    [int] is [Py.int] and [str.upper] is [ascii_upper]. *)

(** C2: one player, A, and then the line abc for the question count.
    The script prints its message for a line that is no number and ends
    with an uncaught [NameError]; it does not ask again. *)
Theorem question_count_abc_raises_NameError :
  main Py.int ascii_upper Sample.server Sample.no_charrefs Sample.in_order ["1"; "A"; "abc"]
  = Run (Raise NameError) []
      [Printed "Welcome to a trivia game!";
       Prompted "How many players? ";
       Prompted "Player 1 name: ";
       Prompted "How many questions would you like to have? ";
       Printed "Please, give a number"].
Proof. reflexivity. Qed.

Lemma question_count_at_most_50_witness :
  exists n, n <= 50 /\ api_url 50 = api_url n.
Proof.
  apply (proj1 (question_count_at_most_50 Py.int ascii_upper Sample.server Sample.no_charrefs
                  Sample.in_order) ["1"; "A"; "50"]).
  vm_compute. tauto.
Defined.

(** C3 as stated fails: the count 0 is accepted and requested. *)
Lemma question_count_zero_is_requested :
  In (Requested (api_url 0))
     (trace (main Py.int ascii_upper Sample.server Sample.no_charrefs Sample.in_order ["1"; "A"; "0"])).
Proof. vm_compute. tauto. Qed.

Lemma quiz_point_iff_same_upper_witness :
  exists score rest tr,
    quiz ascii_upper Sample.no_charrefs Sample.in_order (Response 200 Sample.payload)
      ["A"; "B"] ["paris"; "PARIS"; "0"; "42"]
    = Run (Ok score) rest tr
    /\ forall i j item player answer,
         nth_error Sample.payload i = Some item ->
         nth_error ["A"; "B"] j = Some player ->
         nth_error ["paris"; "PARIS"; "0"; "42"] (i * 2 + j) = Some answer ->
         let correct := unescape Sample.no_charrefs (correct_answer item) in
         let recorded := point score player (str (Z.of_nat i + 1)) in
         (ascii_upper answer = ascii_upper correct -> recorded = Some 1)
         /\ (ascii_upper answer <> ascii_upper correct -> recorded = Some 0)
         /\ (is_ascii answer = true -> is_ascii correct = true ->
             same_but_case answer correct -> recorded = Some 1)
         /\ (is_ascii answer = true ->
             strip answer = correct -> answer <> correct -> recorded = Some 0).
Proof.
  apply (quiz_point_iff_same_upper ascii_upper Sample.no_charrefs Sample.in_order
           (Response 200 Sample.payload) ["A"; "B"] ["paris"; "PARIS"; "0"; "42"]).
  - intros s _. reflexivity.
  - repeat constructor; simpl; intuition discriminate.
  - simpl. lia.
Defined.

(** C1 as stated fails: the correct answer typed after a blank scores 0. *)
Lemma blank_before_answer_scores_0 :
  strip " Paris" = unescape Sample.no_charrefs "Paris"
  /\ result (quiz ascii_upper Sample.no_charrefs Sample.in_order (Response 200 Sample.payload)
               ["A"] [" Paris"; "42"])
     = Ok [("A", [("1", 0); ("2", 1)])].
Proof. split; reflexivity. Qed.

Lemma quiz_score_shape_witness :
  exists score rest tr,
    quiz ascii_upper Sample.no_charrefs Sample.in_order (Response 200 Sample.payload)
      ["A"; "B"] ["paris"; "PARIS"; "0"; "42"]
    = Run (Ok score) rest tr
    /\ (forall player, In player (keys score) <-> In player ["A"; "B"])
    /\ forall player,
         In player ["A"; "B"] ->
         exists points,
           getitem player score = Some points
           /\ keys points = question_keys 2
           /\ Forall is_point (values points).
Proof.
  apply (quiz_score_shape ascii_upper Sample.no_charrefs Sample.in_order
           (Response 200 Sample.payload) ["A"; "B"] ["paris"; "PARIS"; "0"; "42"]).
  simpl. lia.
Defined.

Lemma ask_no_players_first_number_witness :
  ask_no_players Py.int ["two"; ""; "2"; "A"]
  = Run (Ok 2) ["A"]
      (refused_counts ["two"; ""] ++ [Prompted "How many players? "]).
Proof.
  apply (proj1 (ask_no_players_first_number Py.int ["two"; EmptyString]
                  ltac:(repeat constructor)) "2" 2 ["A"]).
  reflexivity.
Defined.

Lemma ask_no_questions_name_error_witness :
  ask_no_questions Py.int (Some 51) ["many"; "50"]
  = emit [Prompted "How many questions would you like to have? ";
          Printed "Please, give a number";
          Printed "Sorry, the maximum number of questions is 50."]
      (ask_no_questions Py.int (Some 51) ["50"]).
Proof.
  apply (proj2 (proj2 (ask_no_questions_name_error Py.int)) 51 "many" ["50"]).
  - reflexivity.
  - reflexivity.
Defined.



(** The table of the run above: the first question is lost by the
    second line, the second one is won by it. *)
Example twice_in_the_list :
  result (quiz ascii_upper Sample.no_charrefs Sample.in_order (Response 200 Sample.payload)
            ["A"; "A"] ["Paris"; "Rome"; "41"; "42"])
  = Ok [("A", [("1", 0); ("2", 1)])].
Proof. reflexivity. Qed.


(** The totals of the run above: A has one point, B has two. *)
Example sample_totals :
  map (fun j => correct_count ascii_upper Sample.no_charrefs Sample.payload 2 j
                  ["paris"; "PARIS"; "0"; "42"]) (seq 0 2)
  = [1; 2].
Proof. reflexivity. Qed.

Lemma main_without_players_witness :
  main Py.int ascii_upper Sample.server Sample.no_charrefs Sample.in_order ["0"; "2"; "A"]
  = Run (Raise StopIteration) ["A"]
      ([Printed "Welcome to a trivia game!";
        Prompted "How many players? ";
        Prompted "How many questions would you like to have? ";
        Printed (thanks 2);
        Requested (api_url 2)]
       ++ status_line (Sample.server (api_url 2))
       ++ flat_map (question_events Sample.no_charrefs Sample.in_order [])
            (results (Sample.server (api_url 2)))
       ++ [Printed "Player(s) with the highest score (-1):";
           Printed "Congratulations!"]).
Proof.
  apply (main_without_players Py.int ascii_upper Sample.server Sample.no_charrefs Sample.in_order
           "0" 0 "2" 2 ["A"]); (reflexivity || lia).
Defined.


Lemma quiz_without_questions_witness :
  quiz ascii_upper Sample.no_charrefs Sample.in_order (Response 200 []) ["A"; "B"] ["x"]
  = Run (Ok [("A", []); ("B", [])]) ["x"] []
  /\ calculate_winner [("A", []); ("B", [])] ["x"]
     = Run (Ok tt) ["x"] [Printed "Sorry, no points. Better luck next time!"]
  /\ write_score_to_csv [("A", []); ("B", [])] ["x"]
     = Run (Ok tt) ["x"]
         [Wrote "quiz_score.csv" (score_file [("A", []); ("B", [])]);
          Printed "You can check the results in quiz_score.csv"]
  /\ Csv.read (score_file [("A", []); ("B", [])])
     = Some (["Name"; "Total"] :: [["A"; "0"]; ["B"; "0"]]).
Proof.
  apply (quiz_without_questions ascii_upper Sample.no_charrefs Sample.in_order 200
           ["A"; "B"] ["x"]).
  - repeat constructor; simpl; intuition discriminate.
  - discriminate.
Defined.

Lemma main_one_request_one_file_witness :
  "quiz_score.csv" = "quiz_score.csv"
  /\ result (main Py.int ascii_upper Sample.server Sample.no_charrefs Sample.in_order
               ["1"; "A"; "2"; "paris"; "42"]) = Ok tt.
Proof.
  apply (proj2 (main_one_request_one_file Py.int ascii_upper Sample.server Sample.no_charrefs
                  Sample.in_order ["1"; "A"; "2"; "paris"; "42"])
           "quiz_score.csv"
           (score_file [("A", [("1", 1); ("2", 1)])])).
  vm_compute. tauto.
Defined.

Lemma quiz_eof_witness :
  result (quiz ascii_upper Sample.no_charrefs Sample.in_order (Response 200 Sample.payload)
            ["A"; "B"] ["paris"; "PARIS"; "0"])
  = Raise EOFError.
Proof.
  apply (quiz_eof ascii_upper Sample.no_charrefs Sample.in_order
           (Response 200 Sample.payload) ["A"; "B"] ["paris"; "PARIS"; "0"]).
  simpl. lia.
Defined.
